(** * A PDF question-answering pipeline (main.py): shallow embedding

    The development follows the layout of [main.py]:
    - [Py]: the fragment of Python's built-in semantics the program relies on
      (str as a sequence of code points, [str.split], [str.strip],
      [' '.join], list slicing and indexing with negative indices, [str(int)]);
    - [Re]: the fragment of the [re] module used by [clean_text]
      (case-insensitive literals, [\s+], [\s*], one trailing starred group,
      [re.sub] scanning left to right);
    - [Chunk], [PDFProcessor], [VectorStore], [LLMInterface], [RAGSystem]:
      the classes of [main.py], method by method.

    External collaborators (pypdf, sentence-transformers, FAISS, the hosted
    generation services) are section variables: the statements hold for every
    behaviour of theirs, and the concrete runs instantiate them. *)

From Stdlib Require Import String Ascii DecimalString PrimFloat.
From Stdlib Require DecimalFacts DecimalPos DecimalZ Sorted.
From Stdlib Require Import ZArith List Bool Lia Arith.
Import ListNotations.

Set Warnings "-inexact-float".
Local Open Scope Z_scope.

(* ===================================================================== *)
(** * Python built-ins *)
(* ===================================================================== *)

Module Py.

(** A Python [str] is a sequence of Unicode code points; [len] and slicing
    count code points. *)
Definition char := N.
Definition str := list char.

Definition char_of_ascii (a : ascii) : char := N_of_ascii a.

(** A string literal of the source (all literals used here are ASCII). *)
Definition lit (s : string) : str := map char_of_ascii (list_ascii_of_string s).

Definition len {A : Type} (l : list A) : Z := Z.of_nat (length l).

Definition char_eqb (a b : char) : bool := N.eqb a b.

Fixpoint str_eqb (a b : str) : bool :=
  match a, b with
  | [], [] => true
  | x :: a', y :: b' => char_eqb x y && str_eqb a' b'
  | _, _ => false
  end.

(** [Py_UNICODE_ISSPACE]: the code points for which [str.isspace], [str.split],
    [str.strip] and the regular-expression class [\s] (on str patterns) agree. *)
Definition isspace (c : char) : bool :=
  (((9 <=? c) && (c <=? 13)) || ((28 <=? c) && (c <=? 32))
   || (c =? 133) || (c =? 160) || (c =? 5760)
   || ((8192 <=? c) && (c <=? 8202))
   || (c =? 8232) || (c =? 8233) || (c =? 8239) || (c =? 8287)
   || (c =? 12288))%N.

(** [text.split()]: maximal runs of non-whitespace, in order. [cur] holds the
    token being read, most recent character first. *)
Fixpoint split_from (cur : str) (s : str) : list str :=
  match s with
  | [] => match cur with [] => [] | _ => [rev cur] end
  | c :: s' =>
      if isspace c
      then match cur with
           | [] => split_from [] s'
           | _ => rev cur :: split_from [] s'
           end
      else split_from (c :: cur) s'
  end.

Definition split (s : str) : list str := split_from [] s.

(** [sep.join(parts)] *)
Fixpoint join (sep : str) (parts : list str) : str :=
  match parts with
  | [] => []
  | [p] => p
  | p :: rest => p ++ sep ++ join sep rest
  end.

Fixpoint lstrip (s : str) : str :=
  match s with
  | c :: s' => if isspace c then lstrip s' else s
  | [] => []
  end.

Definition rstrip (s : str) : str := rev (lstrip (rev s)).

(** [text.strip()] *)
Definition strip (s : str) : str := rstrip (lstrip s).

(** Truthiness of a str or a list: non-empty. *)
Definition truthy {A : Type} (l : list A) : bool :=
  match l with [] => false | _ => true end.

(** Slice bounds: a negative bound counts from the end, and every bound is
    clamped to [0, len]. [None] is an omitted bound. *)
Definition clamp (n i : Z) : Z :=
  if i <? 0 then Z.max 0 (i + n) else Z.min i n.

Definition slice {A : Type} (l : list A) (start stop : option Z) : list A :=
  let n := len l in
  let a := match start with Some i => clamp n i | None => 0 end in
  let b := match stop with Some i => clamp n i | None => n end in
  firstn (Z.to_nat (b - a)) (skipn (Z.to_nat a) l).

(** [l[i]]: a negative index counts from the end; out of range raises
    IndexError ([None]). *)
Definition index {A : Type} (l : list A) (i : Z) : option A :=
  let n := len l in
  if (0 <=? i) && (i <? n) then nth_error l (Z.to_nat i)
  else if (- n <=? i) && (i <? 0) then nth_error l (Z.to_nat (i + n))
  else None.

(** [str(n)] for an int: decimal, a leading [-] when negative, no leading
    zeros. *)
Definition str_of_int (n : Z) : str := lit (NilZero.string_of_int (Z.to_int n)).

End Py.

Import Py.

(* ===================================================================== *)
(** * The regular expressions of [clean_text] *)
(* ===================================================================== *)

Module Re.

(** The patterns of [clean_text] are sequences of literal letters (matched
    with [re.IGNORECASE]), [\s+] and [\s*], optionally followed by one
    starred group of the same shape. *)
Inductive atom : Type :=
| Lit (c : char)      (* a literal, compared ignoring case *)
| Ws1                 (* \s+ *)
| Ws0.                (* \s* *)

Record pattern : Type := mkPattern {
  prefix : list atom;
  repeated : option (list atom)   (* the trailing ( ... )* group, if any *)
}.

Definition lower_ascii (c : char) : char :=
  if ((65 <=? c) && (c <=? 90))%N then (c + 32)%N else c.

(** [sre_lower_unicode] restricted to what can reach an ASCII letter: besides
    A-Z, only U+0130 lowers to [i] and U+212A (Kelvin sign) to [k]. *)
Definition sre_lower (ch : char) : char :=
  if (ch =? 304)%N then 105%N
  else if (ch =? 8490)%N then 107%N
  else lower_ascii ch.

(** The extra case-equivalents the compiler adds for a lowered literal:
    U+0131 for [i], U+017F for [s]. *)
Definition fixes (lo : char) : list char :=
  if (lo =? 105)%N then [305%N]
  else if (lo =? 115)%N then [383%N]
  else [].

(** Does text character [ch] match the pattern literal [c] under
    [re.IGNORECASE]? Exact for ASCII-letter literals, the only ones the
    patterns contain. *)
Definition lit_match (c ch : char) : bool :=
  let lo := lower_ascii c in
  let l := sre_lower ch in
  char_eqb l lo || existsb (char_eqb l) (fixes lo).

(** A greedy whitespace run followed by the continuation [k]: take as much
    whitespace as possible, give characters back one at a time while [k]
    fails. *)
Fixpoint greedy_ws (k : str -> option str) (s : str) : option str :=
  match s with
  | ch :: s' =>
      if isspace ch
      then match greedy_ws k s' with
           | Some rest => Some rest
           | None => k s
           end
      else k s
  | [] => k s
  end.

(** Backtracking match of a sequence of atoms at the head of [s]; the result
    is the text left after the first successful match in priority order. *)
Fixpoint match_atoms (atoms : list atom) (s : str) : option str :=
  match atoms with
  | [] => Some s
  | Lit c :: r =>
      match s with
      | ch :: s' => if lit_match c ch then match_atoms r s' else None
      | [] => None
      end
  | Ws1 :: r =>
      match s with
      | ch :: s' => if isspace ch then greedy_ws (match_atoms r) s' else None
      | [] => None
      end
  | Ws0 :: r => greedy_ws (match_atoms r) s
  end.

(** The greedy star over a group at the end of a pattern: iterate the group
    while it matches and consumes. *)
Fixpoint match_star (fuel : nat) (g : list atom) (s : str) : str :=
  match fuel with
  | O => s
  | S fuel' =>
      match match_atoms g s with
      | Some s' =>
          if (length s' <? length s)%nat then match_star fuel' g s' else s
      | None => s
      end
  end.

(** Match [p] at the head of [s]; the result is the text after the match. *)
Definition match_at (p : pattern) (s : str) : option str :=
  match match_atoms (prefix p) s with
  | None => None
  | Some s1 =>
      Some (match repeated p with
            | None => s1
            | Some g => match_star (length s1) g s1
            end)
  end.

(** [re.sub(p, repl, s)] for a literal replacement: scan left to right,
    replace every leftmost non-overlapping match. [skip] counts the
    characters of the current match still to be dropped. None of the patterns
    of [clean_text] matches the empty string (lemma [match_at_consumes]
    below), so an empty match is treated as no match. *)
Fixpoint sub_from (p : pattern) (repl : str) (skip : nat) (s : str) : str :=
  match s with
  | [] => []
  | ch :: s' =>
      match skip with
      | S k => sub_from p repl k s'
      | O =>
          match match_at p s with
          | Some rest =>
              match (length s - length rest)%nat with
              | O => ch :: sub_from p repl 0 s'
              | S k => repl ++ sub_from p repl k s'
              end
          | None => ch :: sub_from p repl 0 s'
          end
      end
  end.

Definition sub (p : pattern) (repl : str) (s : str) : str := sub_from p repl 0 s.

Definition word (w : string) : list atom := map Lit (lit w).

(** [STRICTLY\s+CONFIDENTIAL(\s*STRICTLY\s+CONFIDENTIAL)*] *)
Definition watermark : pattern :=
  mkPattern (word "STRICTLY" ++ Ws1 :: word "CONFIDENTIAL")
            (Some (Ws0 :: word "STRICTLY" ++ Ws1 :: word "CONFIDENTIAL")).

(** [Home\s+outline\s+] *)
Definition home_outline : pattern :=
  mkPattern (word "Home" ++ Ws1 :: word "outline" ++ [Ws1]) None.

(** [Hamburger\s+Menu\s+Icon\s+with\s+solid\s+fill\s*] *)
Definition hamburger : pattern :=
  mkPattern (word "Hamburger" ++ Ws1 :: word "Menu" ++ Ws1 :: word "Icon"
             ++ Ws1 :: word "with" ++ Ws1 :: word "solid" ++ Ws1
             :: word "fill" ++ [Ws0]) None.

(** [\s+] *)
Definition spaces : pattern := mkPattern [Ws1] None.

(** What is left after a match is a suffix of the text. *)
Definition suffix_of (r s : str) : Prop := exists pre, s = pre ++ r.

(** A pattern that opens with a literal or with [\s+] consumes at least one
    character. *)
Definition opens_with_char (p : pattern) : Prop :=
  match prefix p with
  | Lit _ :: _ | Ws1 :: _ => True
  | _ => False
  end.

(** Does [p] match somewhere in [s]? *)
Fixpoint occurs (p : pattern) (s : str) : bool :=
  match s with
  | [] => false
  | c :: s' =>
      match match_at p s with
      | Some _ => true
      | None => occurs p s'
      end
  end.

(** Collapsing whitespace as the specification words it: every run of
    whitespace becomes one space. [in_run] tells that the previous character
    was whitespace. *)
Fixpoint collapse (in_run : bool) (s : str) : str :=
  match s with
  | [] => []
  | c :: s' =>
      if isspace c
      then if in_run then collapse true s' else 32%N :: collapse true s'
      else c :: collapse false s'
  end.

(** The only whitespace in [s] is the space character, never twice in a row
    ([after_ws]: nor right at the start). *)
Fixpoint single_spaced (after_ws : bool) (s : str) : bool :=
  match s with
  | [] => true
  | c :: s' =>
      if isspace c
      then (c =? 32)%N && negb after_ws && single_spaced true s'
      else single_spaced false s'
  end.

End Re.

(* ===================================================================== *)
(** * class Chunk *)
(* ===================================================================== *)

Record Chunk : Type := mkChunk {
  text : str;
  page_num : Z;
  chunk_id : Z
}.

(** [f"[p{self.page_num}:c{self.chunk_id}]"] *)
Definition get_citation (c : Chunk) : str :=
  lit "[p" ++ str_of_int (page_num c) ++ lit ":c" ++ str_of_int (chunk_id c)
  ++ lit "]".

(* ===================================================================== *)
(** * class PDFProcessor *)
(* ===================================================================== *)

Record PDFProcessor : Type := mkPDFProcessor {
  chunk_size : Z;
  chunk_overlap : Z
}.

(** [PDFProcessor.__init__]: stores both arguments as given. *)
Definition PDFProcessor_init (size overlap : Z) : PDFProcessor :=
  mkPDFProcessor size overlap.

Definition clean_text (t : str) : str :=
  let t := Re.sub Re.watermark [] t in
  let t := Re.sub Re.home_outline [] t in
  let t := Re.sub Re.hamburger [] t in
  let t := Re.sub Re.spaces (lit " ") t in
  strip t.

(** [extract_text_by_page]: the PDF reader hands over one entry per page,
    [Some raw] for the extracted text and [None] when extraction raises.
    Pages are numbered from [i]; failed, blank and cleaned-to-empty pages are
    left out. *)
Fixpoint extract_pages (i : Z) (reader_pages : list (option str))
  : list (Z * str) :=
  match reader_pages with
  | [] => []
  | None :: rest => extract_pages (i + 1) rest
  | Some raw :: rest =>
      if truthy (strip raw)
      then let cleaned_text := clean_text raw in
           if truthy cleaned_text
           then (i, cleaned_text) :: extract_pages (i + 1) rest
           else extract_pages (i + 1) rest
      else extract_pages (i + 1) rest
  end.

Definition extract_text_by_page (reader_pages : list (option str))
  : list (Z * str) :=
  extract_pages 1 reader_pages.

(** The [while start < len(words)] loop of [chunk_text]. [None]: the loop is
    still running when the fuel is used up. *)
Fixpoint chunk_loop (fuel : nat) (self : PDFProcessor) (words : list str)
    (page : Z) (chunks : list Chunk) (cid start : Z) : option (list Chunk) :=
  match fuel with
  | O => None
  | S fuel' =>
      if start <? len words then
        let stop := start + chunk_size self in
        let chunk_words := slice words (Some start) (Some stop) in
        let chunk_text := join (lit " ") chunk_words in
        chunk_loop fuel' self words page
          (chunks ++ [mkChunk chunk_text page cid])
          (cid + 1)
          (start + (chunk_size self - chunk_overlap self))
      else Some chunks
  end.

Definition chunk_text (fuel : nat) (self : PDFProcessor) (t : str)
    (page : Z) (start_chunk_id : Z) : option (list Chunk) :=
  let words := split t in
  if negb (truthy words) then Some []
  else chunk_loop fuel self words page [] start_chunk_id 0.

(** The [for page_num, text in pages] loop of [process_pdf]. *)
Fixpoint process_pages (fuel : nat) (self : PDFProcessor)
    (pages : list (Z * str)) (all_chunks : list Chunk) (chunk_counter : Z)
  : option (list Chunk) :=
  match pages with
  | [] => Some all_chunks
  | (page, t) :: rest =>
      match chunk_text fuel self t page chunk_counter with
      | None => None
      | Some page_chunks =>
          process_pages fuel self rest (all_chunks ++ page_chunks)
            (chunk_counter + len page_chunks)
      end
  end.

Definition process_pdf (fuel : nat) (self : PDFProcessor)
    (reader_pages : list (option str)) : option (list Chunk) :=
  let pages := extract_text_by_page reader_pages in
  process_pages fuel self pages [] 0.

(* ===================================================================== *)
(** * Exceptions and results *)
(* ===================================================================== *)

Inductive Exn : Type :=
| IndexError                 (* list or tuple index out of range *)
| ClientError (msg : str)    (* an exception raised by a client library *)
| AssertionError             (* a failed assert, as FAISS raises for k <= 0 *)
| ValueError.                (* an argument a library call cannot convert *)

(** The outcome of running a piece of the program: a value, a raised
    exception, or still running when the fuel of a loop is used up. *)
Inductive result (A : Type) : Type :=
| Ok (a : A)
| Raise (e : Exn)
| Running.

Arguments Ok {A} a.
Arguments Raise {A} e.
Arguments Running {A}.

Definition bind {A B : Type} (m : result A) (f : A -> result B) : result B :=
  match m with
  | Ok a => f a
  | Raise e => Raise e
  | Running => Running
  end.

Notation "x <- m ;; k" := (bind m (fun x => k))
  (at level 61, m at next level, right associativity).

Definition of_loop {A : Type} (o : option A) : result A :=
  match o with Some a => Ok a | None => Running end.

Definition of_lookup {A : Type} (o : option A) : result A :=
  match o with Some a => Ok a | None => Raise IndexError end.

(** The outcome of a call into a library: it returns a value or raises. *)
Inductive call (A : Type) : Type :=
| Returns (a : A)
| Raises (e : Exn).

Arguments Returns {A} a.
Arguments Raises {A} e.

Definition of_call {A : Type} (c : call A) : result A :=
  match c with Returns a => Ok a | Raises e => Raise e end.

(* ===================================================================== *)
(** * Conversation turns and generation requests *)
(* ===================================================================== *)

Inductive Role : Type := system | user | assistant.

Definition role_eqb (a b : Role) : bool :=
  match a, b with
  | system, system | user, user | assistant, assistant => true
  | _, _ => false
  end.

(** [{"role": ..., "content": ...}] *)
Record Msg : Type := mkMsg { role : Role; content : str }.

(** What a hosted generation service gives back to one request. *)
Inductive Reply : Type :=
| Text (t : str)          (* a response carrying text *)
| Malformed               (* a response without the expected text field *)
| Failure (msg : str).    (* the call raised: quota, network, ... *)

(** One request sent to a hosted generation service. *)
Inductive Call : Type :=
| GeminiCall (model : str) (contents : str)
| OpenAICall (messages : list Msg).

Definition refusal : str := lit "Not found in the document.".

Definition nl : str := [10%N].
Definition dq : str := [34%N].

(* ===================================================================== *)
(** * class VectorStore, class LLMInterface, class RAGSystem *)
(* ===================================================================== *)

(** The state of a [faiss.IndexFlatIP]: its dimension and the vectors added. *)
Record FaissIndex : Type := mkFaissIndex {
  d : Z;
  xb : list (list float)
}.

Record VectorStore : Type := mkVectorStore {
  index : option FaissIndex;
  chunks : list Chunk;
  dimension : option Z
}.

Record LLMInterface : Type := mkLLMInterface {
  use_openai : bool;
  use_gemini : bool
}.

Record RAGSystem : Type := mkRAGSystem {
  top_k : Z;
  pdf_processor : PDFProcessor;
  vector_store : VectorStore;
  llm : LLMInterface;
  chat_history : list Msg;
  rag_chunks : list Chunk
}.

(** How the construction of a service client ends. *)
Inductive ClientInit : Type :=
| Started
| NoPackage              (* ImportError *)
| InitFailed (msg : str).

(** The process environment read by [LLMInterface.__init__]. *)
Record Env : Type := mkEnv {
  OPENAI_API_KEY : option str;
  GEMINI_API_KEY : option str;
  genai_client : ClientInit;
  openai_client : ClientInit
}.

(** [a or b] on optional strings: [a] when it is a non-empty string. *)
Definition or_else (a b : option str) : option str :=
  match a with
  | Some (_ :: _) => a
  | _ => b
  end.

Definition key_given (k : option str) : bool :=
  match k with Some (_ :: _) => true | _ => false end.

(** [LLMInterface.__init__]: Gemini when its key is set and its client
    starts; otherwise OpenAI when its key is set (only a missing package is
    tolerated there); otherwise the fallback mode. *)
Definition LLMInterface_init (env : Env) (api_key gemini_key : option str)
  : result LLMInterface :=
  let openai_key := or_else api_key (OPENAI_API_KEY env) in
  let gemini_key := or_else gemini_key (GEMINI_API_KEY env) in
  let try_openai :=
    if key_given openai_key then
      match openai_client env with
      | Started => Ok (mkLLMInterface true false)
      | NoPackage => Ok (mkLLMInterface false false)
      | InitFailed msg => Raise (ClientError msg)
      end
    else Ok (mkLLMInterface false false) in
  if key_given gemini_key then
    match genai_client env with
    | Started => Ok (mkLLMInterface false true)
    | _ => try_openai
    end
  else try_openai.

(** The relevance threshold of [_fallback_answer], the float [0.4]. *)
Definition threshold : float := 0.4%float.

Definition _fallback_answer (context_chunks : list (Chunk * float)) : str :=
  match context_chunks with
  | [] => refusal
  | (top_chunk, score) :: _ =>
      if PrimFloat.ltb score threshold then refusal
      else
        let citation := get_citation top_chunk in
        let snippet :=
          if len (text top_chunk) >? 200
          then slice (text top_chunk) None (Some 200) ++ lit "..."
          else text top_chunk in
        citation ++ lit " " ++ snippet
  end.

Definition system_prompt : str :=
  lit "You are a precise document analyst. Answer questions ONLY using the provided context."
  ++ nl ++ nl
  ++ lit "STRICT RULES:" ++ nl
  ++ lit "1. Answer ONLY from the provided context chunks" ++ nl
  ++ lit "2. Include citations [p{page}:c{chunk}] for every claim" ++ nl
  ++ lit "3. If the answer is not in the context, respond EXACTLY: "
  ++ dq ++ refusal ++ dq ++ nl
  ++ lit "4. Do NOT use external knowledge or make assumptions" ++ nl
  ++ lit "5. Keep answers concise and factual" ++ nl
  ++ lit "6. Use chat history for context but answer from retrieved chunks only".

Definition context_of (context_chunks : list (Chunk * float)) : str :=
  join (nl ++ nl)
    (map (fun cs => get_citation (fst cs) ++ lit " " ++ text (fst cs))
         context_chunks).

Definition user_prompt (query : str) (context : str) : str :=
  lit "Context from document:" ++ nl ++ context ++ nl ++ nl
  ++ lit "Question: " ++ query ++ nl ++ nl
  ++ lit "Provide a short answer with citations [p{page}:c{chunk}]. If not found in context, say exactly: "
  ++ dq ++ refusal ++ dq ++ lit " ".

(** The last 10 turns, rendered for the Gemini prompt. *)
Definition history_text (history : list Msg) : str :=
  if truthy history then
    nl ++ nl ++ lit "Previous conversation:" ++ nl
    ++ concat (map (fun msg =>
                 (if role_eqb (role msg) user then lit "User"
                  else lit "Assistant")
                 ++ lit ": " ++ content msg ++ nl)
               (slice history (Some (-10)) None))
  else [].

Section Collaborators.

(** The sentence-transformer applied to one text. *)
Variable embed : str -> list float.

(** [faiss.normalize_L2] followed by the conversion to float32. *)
Variable normalize_L2 : list (list float) -> list (list float).

(** [IndexFlatIP.search(x, k)] for a one-row query: the pairs
    [zip(indices[0], scores[0])] when the call returns, or the exception it
    raises (AssertionError for [k <= 0], ValueError for a [k] it cannot
    convert). *)
Variable index_search :
  FaissIndex -> list (list float) -> Z -> call (list (Z * float)).

(** The hosted generation services. *)
Variable gemini : str -> Reply.
Variable openai : list Msg -> Reply.

(** [model.encode(texts)]: the array built from one embedding per text, as a
    list of rows. *)
Definition encode (texts : list str) : list (list float) := map embed texts.

(** [embeddings.shape[1]]: the array of a non-empty batch has shape (n, D);
    the array of the empty batch has shape (0,), whose index 1 is out of
    range. *)
Definition shape_1 (embeddings : list (list float)) : result Z :=
  match embeddings with
  | [] => Raise IndexError
  | row :: _ => Ok (len row)
  end.

Definition VectorStore_init : VectorStore := mkVectorStore None [] None.

Definition build_index (self : VectorStore) (cs : list Chunk)
  : result VectorStore :=
  let texts := map text cs in
  let embeddings := encode texts in
  dim <- shape_1 embeddings ;;
  Ok (mkVectorStore (Some (mkFaissIndex dim (normalize_L2 embeddings)))
                    cs (Some dim)).

(** The [for idx, score in zip(indices[0], scores[0])] loop of [search]. *)
Fixpoint search_loop (self : VectorStore) (hits : list (Z * float))
    (results : list (Chunk * float)) : result (list (Chunk * float)) :=
  match hits with
  | [] => Ok results
  | (idx, score) :: rest =>
      if idx <? len (chunks self) then
        c <- of_lookup (Py.index (chunks self) idx) ;;
        search_loop self rest (results ++ [(c, score)])
      else search_loop self rest results
  end.

Definition search (self : VectorStore) (query : str) (k : Z)
  : result (list (Chunk * float)) :=
  match index self with
  | None => Ok []
  | Some ix =>
      let query_embedding := normalize_L2 (encode [query]) in
      hits <- of_call (index_search ix query_embedding k) ;;
      search_loop self hits []
  end.

(** What the hosted service answers to a request, and whether that is a
    failure of the collaborator (an exception or a response without text). *)
Definition reply_to (c : Call) : Reply :=
  match c with
  | GeminiCall _ contents => gemini contents
  | OpenAICall messages => openai messages
  end.

Definition failed (r : Reply) : bool :=
  match r with Text _ => false | _ => true end.

(** [generate_answer]: the answer and the requests sent to a hosted
    service. *)
Definition generate_answer (self : LLMInterface) (query : str)
    (context_chunks : list (Chunk * float)) (history : list Msg)
  : str * list Call :=
  let context := context_of context_chunks in
  let user_prompt := user_prompt query context in
  if use_gemini self then
    let full_prompt :=
      system_prompt ++ nl ++ nl ++ history_text history ++ nl ++ nl
      ++ user_prompt in
    let call := GeminiCall (lit "gemini-2.0-flash-exp") full_prompt in
    match gemini full_prompt with
    | Text t => (strip t, [call])
    | _ => (_fallback_answer context_chunks, [call])
    end
  else if use_openai self then
    let messages :=
      [mkMsg system system_prompt]
      ++ slice history (Some (-10)) None
      ++ [mkMsg user user_prompt] in
    let call := OpenAICall messages in
    match openai messages with
    | Text t => (strip t, [call])
    | _ => (_fallback_answer context_chunks, [call])
    end
  else (_fallback_answer context_chunks, []).

(** [RAGSystem.__init__]; [reader_pages] is what the PDF reader extracts from
    the file at [pdf_path]. *)
Definition RAGSystem_init (fuel : nat) (env : Env)
    (reader_pages : list (option str)) (size overlap k : Z)
    (gemini_key openai_key : option str) : result RAGSystem :=
  let pdf_processor := PDFProcessor_init size overlap in
  let vector_store := VectorStore_init in
  llm <- LLMInterface_init env openai_key gemini_key ;;
  cs <- of_loop (process_pdf fuel pdf_processor reader_pages) ;;
  vector_store <- build_index vector_store cs ;;
  Ok (mkRAGSystem k pdf_processor vector_store llm [] cs).

Definition last_opt {A : Type} (l : list A) : option A :=
  match rev l with x :: _ => Some x | [] => None end.

(** The retrieval query of [answer_question]: in fallback mode, the last
    user question among the last four turns is put in front. *)
Definition enhanced_query (self : RAGSystem) (query : str) : str :=
  if truthy (chat_history self)
     && negb (use_openai (llm self) || use_gemini (llm self))
  then
    let recent_user_msgs :=
      filter (fun msg => role_eqb (role msg) user)
             (slice (chat_history self) (Some (-4)) None) in
    match last_opt recent_user_msgs with
    | Some m => content m ++ lit " " ++ query
    | None => query
    end
  else query.

Definition set_history (self : RAGSystem) (h : list Msg) : RAGSystem :=
  mkRAGSystem (top_k self) (pdf_processor self) (vector_store self)
              (llm self) h (rag_chunks self).

(** [answer_question]: what the call returns or raises, the session after
    the call, and the requests sent to a hosted service during it. *)
Definition answer_question (self : RAGSystem) (query : str)
  : result str * RAGSystem * list Call :=
  match search (vector_store self) (enhanced_query self query) (top_k self) with
  | Ok results =>
      if negb (truthy results) then (Ok refusal, self, [])
      else
        let '(answer, calls) :=
          generate_answer (llm self) query results (chat_history self) in
        (Ok answer,
         set_history self
           (chat_history self ++ [mkMsg user query; mkMsg assistant answer]),
         calls)
  | Raise e => (Raise e, self, [])
  | Running => (Running, self, [])
  end.

(** The [clear] command of [chat_loop]: [self.chat_history = []]. *)
Definition clear (self : RAGSystem) : RAGSystem := set_history self [].

(** A run of [answer_question] over a list of queries, the session threaded
    through; it stops at the first call that does not return. *)
Fixpoint ask_all (self : RAGSystem) (queries : list str)
  : option (RAGSystem * list str) :=
  match queries with
  | [] => Some (self, [])
  | q :: rest =>
      match answer_question self q with
      | (Ok a, self', _) =>
          match ask_all self' rest with
          | Some (s, answers) => Some (s, a :: answers)
          | None => None
          end
      | _ => None
      end
  end.

(** The parsed command line: [pdf_path] is optional, the three numbers are
    whatever integers [argparse] read ([type=int], no further check). *)
Record Args : Type := mkArgs {
  pdf_path : option str;
  arg_chunk_size : Z;
  arg_chunk_overlap : Z;
  arg_top_k : Z
}.

(** How [parser.parse_args()] ends: with the parsed arguments, or by leaving
    the program itself (status 2 on a value it cannot read, status 0 after
    printing the help). *)
Inductive Parse : Type :=
| Parsed (args : Args)
| ParserExit (code : Z).

(** How [main] goes on after the session is set up. *)
Inductive MainOutcome : Type :=
| SysExit (code : Z)
| ChatLoop (rag : RAGSystem)
| Hangs.

(** [main] up to the call of [chat_loop]. [parsed] is how
    [parser.parse_args()] ends on the command line given, [path_exists] is
    [os.path.exists], [read_pdf] what the PDF reader extracts from a path. *)
Definition main (fuel : nat) (env : Env) (path_exists : str -> bool)
    (read_pdf : str -> list (option str)) (parsed : Parse) : MainOutcome :=
  match parsed with
  | ParserExit code => SysExit code
  | Parsed args =>
      match pdf_path args with
      | Some (c :: p) =>
          let path := c :: p in
          if negb (path_exists path) then SysExit 1
          else
            match RAGSystem_init fuel env (read_pdf path)
                    (arg_chunk_size args) (arg_chunk_overlap args)
                    (arg_top_k args) None None with
            | Ok rag => ChatLoop rag
            | Raise _ => SysExit 1
            | Running => Hangs
            end
      | _ => SysExit 1
      end
  end.

(** What the FAISS call of [search] gives: the labels and scores handed to
    the loop (none when the store has no index), or the exception raised. *)
Definition faiss_hits (self : VectorStore) (query : str) (k : Z)
  : call (list (Z * float)) :=
  match index self with
  | None => Returns []
  | Some ix => index_search ix (normalize_L2 (encode [query])) k
  end.

(** FAISS serves a store: for every query the call returns, each label it
    returns can be read from the chunk list, and at least one is below the
    length of the list. *)
Definition well_served (store : VectorStore) (k : Z) : Prop :=
  forall q,
    exists hits,
      faiss_hits store q k = Returns hits
      /\ Forall (fun h => - len (chunks store) <= fst h) hits
      /\ Exists (fun h => fst h < len (chunks store)) hits.



(** What [input("You: ")] brings: a line, Ctrl-C (KeyboardInterrupt), or the
    end of the input stream (EOFError). *)
Inductive Input : Type :=
| Line (s : str)
| Interrupt
| EndOfInput.

(** What one turn of [chat_loop] prints. *)
Inductive Printed : Type :=
| Goodbye
| Cleared
| Answered (answer : str)
| ErrorShown (e : Exn)
| InputErrorShown.

(** [query.lower() == w] for a command word [w] of [chat_loop]. [str.lower]
    sends A-Z to a-z; the only other characters whose lower-case form
    contains an ASCII letter are U+212A (to [k]) and U+0130 (to [i] followed
    by U+0307), and no command word contains [k] or U+0307, so lowering A-Z
    alone decides the comparison. *)
Definition lower_is (query : str) (w : string) : bool :=
  str_eqb (map Re.lower_ascii query) (lit w).

(** One pass through the body of [while True] in [chat_loop]: the session
    after it, whether the loop goes on, and what was printed. An exception of
    [answer_question] is caught and shown, and so is the end of input; only
    a quit word and Ctrl-C leave the loop. *)
Definition chat_turn (self : RAGSystem) (inp : Input)
  : bool * RAGSystem * list Printed :=
  match inp with
  | Interrupt => (false, self, [Goodbye])
  | EndOfInput => (true, self, [InputErrorShown])
  | Line raw =>
      let query := strip raw in
      if negb (truthy query) then (true, self, [])
      else if lower_is query "quit" || lower_is query "exit"
              || lower_is query "q"
      then (false, self, [Goodbye])
      else if lower_is query "clear" then (true, clear self, [Cleared])
      else
        match answer_question self query with
        | (Ok answer, self', _) => (true, self', [Answered answer])
        | (Raise e, self', _) => (true, self', [ErrorShown e])
        | (Running, self', _) => (true, self', [])
        end
  end.

(** [chat_loop] on the inputs read so far: whether the loop is still
    running, the session, and everything printed. *)
Fixpoint chat_loop (self : RAGSystem) (inputs : list Input)
  : bool * RAGSystem * list Printed :=
  match inputs with
  | [] => (true, self, [])
  | inp :: rest =>
      match chat_turn self inp with
      | (true, self', out) =>
          match chat_loop self' rest with
          | (going, self'', out') => (going, self'', out ++ out')
          end
      | (false, self', out) => (false, self', out)
      end
  end.

End Collaborators.

(* ===================================================================== *)
(** * Sample collaborators for concrete runs *)
(* ===================================================================== *)

Module Sample.

Definition embed (t : str) : list float := [1.0%float].

Definition normalize_L2 (m : list (list float)) : list (list float) := m.

(** The lowest float32, the score FAISS reports for a missing neighbour of
    an inner-product search. *)
Definition no_score : float := (-0x1.fffffep+127)%float.

(** A stand-in for [IndexFlatIP.search] with FAISS's conventions: the call
    asserts [k > 0]; the stored vectors are reported by label, and when
    fewer than [k] vectors are stored the missing labels are -1. *)
Definition index_search (ix : FaissIndex) (q : list (list float)) (k : Z)
  : call (list (Z * float)) :=
  if k <=? 0 then Raises AssertionError
  else
    let n := Nat.min (length (xb ix)) (Z.to_nat k) in
    Returns (map (fun i => (Z.of_nat i, 0.9%float)) (seq 0 n)
             ++ repeat (-1, no_score) (Z.to_nat k - n)).

(** Generation services that are out of quota, or answer without text. *)
Definition gemini (prompt : str) : Reply :=
  Failure (lit "429 RESOURCE_EXHAUSTED").

Definition openai (messages : list Msg) : Reply := Malformed.

Definition alpha : Chunk := mkChunk (lit "alpha beta") 1 0.

(** A session in fallback mode whose store was never built. *)
Definition unbuilt : RAGSystem :=
  mkRAGSystem 5 (mkPDFProcessor 500 100) (mkVectorStore None [] None)
              (mkLLMInterface false false) [] [].

(** A session over the one-chunk document, with Gemini active. *)
Definition one_chunk : RAGSystem :=
  mkRAGSystem 1 (mkPDFProcessor 500 100)
              (mkVectorStore (Some (mkFaissIndex 1 [[1.0%float]])) [alpha]
                             (Some 1))
              (mkLLMInterface false true) [] [alpha].

End Sample.

(* ===================================================================== *)
(** * Citation tokens *)
(* ===================================================================== *)

Module Citation.

(** The citation token of the wire format: [[p<n>:c<m>]] with [n] and [m]
    decimal numbers without sign, whitespace or leading zeros. *)
Definition is_digit (c : char) : bool := ((48 <=? c) && (c <=? 57))%N.

Fixpoint skip_digits (s : str) : str :=
  match s with
  | c :: r => if is_digit c then skip_digits r else s
  | [] => []
  end.

(** Read one number at the head of [s]; the result is the text after it. *)
Definition number (s : str) : option str :=
  match s with
  | c :: r =>
      if (c =? 48)%N then Some r
      else if is_digit c then Some (skip_digits r)
      else None
  | [] => None
  end.

(** Does a citation token start at the head of [s]? *)
Definition token_at (s : str) : bool :=
  match s with
  | 91%N :: 112%N :: r =>
      match number r with
      | Some (58%N :: 99%N :: r2) =>
          match number r2 with
          | Some (93%N :: _) => true
          | _ => false
          end
      | _ => false
      end
  | _ => false
  end.

(** The number of citation tokens in [s]: the positions where one starts. *)
Fixpoint count_tokens (s : str) : nat :=
  match s with
  | [] => 0
  | c :: r => ((if token_at s then 1 else 0) + count_tokens r)%nat
  end.

End Citation.

(* ===================================================================== *)
(** * The chunker as the specification words it *)
(* ===================================================================== *)

Module Sliding.

(** The [i]-th window of [window] tokens when the window moves by [step]. *)
Definition window_at (words : list str) (window step : Z) (i : nat)
  : list str :=
  firstn (Z.to_nat window) (skipn (i * Z.to_nat step) words).

(** The number of window positions that start inside [n] tokens. *)
Definition num_windows (n step : Z) : nat := Z.to_nat ((n + step - 1) / step).

Definition chunk_at (words : list str) (window step page cid0 : Z) (i : nat)
  : Chunk :=
  mkChunk (join (lit " ") (window_at words window step i)) page
          (cid0 + Z.of_nat i).

(** One chunk per window position, numbered from [cid0]. *)
Definition sliding_chunks (words : list str) (window step page cid0 : Z)
  : list Chunk :=
  map (chunk_at words window step page cid0)
      (seq 0 (num_windows (len words) step)).

(** A whitespace-delimited token: non-empty and free of whitespace. *)
Definition token (w : str) : Prop :=
  w <> [] /\ forallb (fun c => negb (isspace c)) w = true.

(** "The last window may hold fewer than [window] tokens", read as: every
    chunk before the last one holds exactly [window] tokens. *)
Definition only_last_short (cs : list Chunk) (window : Z) : Prop :=
  forall i c,
    nth_error cs i = Some c -> (S i < length cs)%nat ->
    len (split (text c)) = window.

End Sliding.

(** The turns of a list of completed exchanges: user, assistant, user, ... *)
Definition turns_of (exchanges : list (str * str)) : list Msg :=
  flat_map (fun qa => [mkMsg user (fst qa); mkMsg assistant (snd qa)])
           exchanges.

(** The excerpt [_fallback_answer] takes from a chunk text. *)
Definition excerpt (t : str) : str :=
  if len t >? 200 then firstn 200 t ++ lit "..." else t.

(** Numbers [cid], [cid + 1], ... for [n] chunks. *)
Definition ids_from (cid : Z) (n : nat) : list Z :=
  map (fun i => cid + Z.of_nat i) (seq 0 n).

(** Loop fuel that covers the longest page of a document. *)
Definition enough_fuel (pages : list (Z * str)) : nat :=
  S (list_max (map (fun p => length (split (snd p))) pages)).

(* ===================================================================== *)
(** * Lemmas on the Python built-ins *)
(* ===================================================================== *)

Section PyFacts.

Lemma len_nonneg {A : Type} (l : list A) : 0 <= len l.
Proof. unfold len. lia. Qed.

Lemma len_app {A : Type} (l1 l2 : list A) : len (l1 ++ l2) = len l1 + len l2.
Proof. unfold len. rewrite length_app. lia. Qed.

Lemma len_nil_iff {A : Type} (l : list A) : len l = 0 <-> l = [].
Proof.
  unfold len. destruct l; simpl; split; intros H; try reflexivity;
    try discriminate; lia.
Qed.

(** A slice with bounds inside the list is [firstn] after [skipn]. *)
Lemma slice_window {A : Type} (l : list A) (a w : Z) :
  0 <= a -> a < len l -> 0 <= w ->
  slice l (Some a) (Some (a + w)) = firstn (Z.to_nat w) (skipn (Z.to_nat a) l).
Proof.
  intros Ha Hlt Hw. unfold slice, clamp.
  assert (E1 : (a <? 0) = false) by (apply Z.ltb_ge; lia).
  assert (E2 : (a + w <? 0) = false) by (apply Z.ltb_ge; lia).
  rewrite E1, E2.
  replace (Z.min a (len l)) with a by lia.
  destruct (Z.min_spec (a + w) (len l)) as [[Hc ->] | [Hc ->]].
  - f_equal. lia.
  - set (r := skipn (Z.to_nat a) l).
    assert (Hr : length r = Z.to_nat (len l - a)).
    { unfold r. rewrite length_skipn. unfold len. lia. }
    rewrite (firstn_all2 (n := Z.to_nat w) r) by lia.
    rewrite <- Hr. apply firstn_all.
Qed.

(** Taking a prefix: [l[:k]] for a non-negative [k]. *)
Lemma slice_prefix {A : Type} (l : list A) (k : Z) :
  0 <= k -> slice l None (Some k) = firstn (Z.to_nat k) l.
Proof.
  intros Hk. unfold slice, clamp.
  assert (E : (k <? 0) = false) by (apply Z.ltb_ge; lia).
  rewrite E. simpl skipn. rewrite Z.sub_0_r.
  destruct (Z.min_spec k (len l)) as [[Hc ->] | [Hc ->]]; [reflexivity|].
  unfold len. rewrite Nat2Z.id.
  rewrite firstn_all. symmetry. apply firstn_all2. unfold len in Hc. lia.
Qed.

Lemma split_from_tokens (s cur : str) :
  forallb (fun c => negb (isspace c)) cur = true ->
  Forall Sliding.token (split_from cur s).
Proof.
  revert cur. induction s as [|c s IH]; intros cur Hcur; simpl.
  - destruct cur as [|x cur']; [constructor|].
    constructor; [|constructor]. split.
    + intros E. apply (f_equal (@length _)) in E.
      rewrite length_rev in E. discriminate.
    + rewrite forallb_forall in *. intros y Hy. apply Hcur.
      apply in_rev. exact Hy.
  - destruct (isspace c) eqn:Hc.
    + destruct cur as [|x cur'].
      * apply IH. reflexivity.
      * constructor; [|apply IH; reflexivity]. split.
        -- intros E. apply (f_equal (@length _)) in E.
           rewrite length_rev in E. discriminate.
        -- rewrite forallb_forall in *. intros y Hy. apply Hcur.
           apply in_rev. exact Hy.
    + apply IH. simpl. rewrite Hc. exact Hcur.
Qed.

(** Every element of [text.split()] is a non-empty whitespace-free token. *)
Lemma split_tokens (s : str) : Forall Sliding.token (split s).
Proof. apply split_from_tokens. reflexivity. Qed.

Lemma split_from_nonspace (w s cur : str) :
  forallb (fun c => negb (isspace c)) w = true ->
  split_from cur (w ++ s) = split_from (rev w ++ cur) s.
Proof.
  revert cur. induction w as [|c w IH]; intros cur Hw; simpl in *.
  - reflexivity.
  - apply andb_prop in Hw as [Hc Hw]. apply negb_true_iff in Hc.
    rewrite Hc. rewrite IH by exact Hw. rewrite <- app_assoc. reflexivity.
Qed.

(** The three equations that determine [split]: leading whitespace is
    dropped, and a token followed by whitespace or by the end of the text is
    cut off as it stands. *)
Lemma split_space (c : char) (s : str) :
  isspace c = true -> split (c :: s) = split s.
Proof. intros Hc. unfold split. simpl. rewrite Hc. reflexivity. Qed.

Lemma split_token_end (w : str) :
  Sliding.token w -> split w = [w].
Proof.
  intros [Hne Hw]. unfold split.
  rewrite <- (app_nil_r w) at 1. rewrite split_from_nonspace by exact Hw.
  simpl. rewrite app_nil_r.
  destruct (rev w) eqn:E.
  - apply (f_equal (@length _)) in E. rewrite length_rev in E.
    destruct w; [contradiction|discriminate].
  - rewrite <- E. rewrite rev_involutive. reflexivity.
Qed.

Lemma split_token_space (w : str) (c : char) (s : str) :
  Sliding.token w -> isspace c = true -> split (w ++ c :: s) = w :: split s.
Proof.
  intros [Hne Hw] Hc. unfold split.
  rewrite split_from_nonspace by exact Hw.
  simpl. rewrite Hc. rewrite app_nil_r.
  destruct (rev w) eqn:E.
  - apply (f_equal (@length _)) in E. rewrite length_rev in E.
    destruct w; [contradiction|discriminate].
  - rewrite <- E. rewrite rev_involutive. reflexivity.
Qed.

(** What [lstrip] leaves is empty or starts with a character that is not
    whitespace. *)
Lemma lstrip_head (s : str) :
  lstrip s = [] \/ exists c r, lstrip s = c :: r /\ isspace c = false.
Proof.
  induction s as [|c s IH]; simpl; [left; reflexivity|].
  destruct (isspace c) eqn:E; [exact IH|].
  right. exists c, s. split; [reflexivity|exact E].
Qed.

End PyFacts.

(* ===================================================================== *)
(** * Text cleaning *)
(* ===================================================================== *)

Section CleaningFacts.

Import Re.

Lemma suffix_refl (s : str) : suffix_of s s.
Proof. exists []. reflexivity. Qed.

Lemma suffix_cons (c : char) (r s : str) : suffix_of r s -> suffix_of r (c :: s).
Proof. intros [pre ->]. exists (c :: pre). reflexivity. Qed.

Lemma suffix_length (r s : str) :
  suffix_of r s -> (length r <= length s)%nat.
Proof. intros [pre ->]. rewrite length_app. lia. Qed.

Lemma greedy_ws_suffix (k : str -> option str) :
  (forall s r, k s = Some r -> suffix_of r s) ->
  forall s r, greedy_ws k s = Some r -> suffix_of r s.
Proof.
  intros Hk. induction s as [|ch s IH]; intros r H; simpl in H.
  - apply Hk. exact H.
  - destruct (isspace ch).
    + destruct (greedy_ws k s) as [r'|] eqn:E.
      * injection H as <-. apply suffix_cons, IH. reflexivity.
      * apply Hk. exact H.
    + apply Hk. exact H.
Qed.

Lemma match_atoms_suffix (atoms : list atom) :
  forall s r, match_atoms atoms s = Some r -> suffix_of r s.
Proof.
  induction atoms as [|a atoms IH]; intros s r H; simpl in H.
  - injection H as <-. apply suffix_refl.
  - destruct a.
    + destruct s as [|ch s]; [discriminate|].
      destruct (lit_match c ch); [|discriminate].
      apply suffix_cons, IH. exact H.
    + destruct s as [|ch s]; [discriminate|].
      destruct (isspace ch); [|discriminate].
      apply suffix_cons. apply (greedy_ws_suffix _ IH). exact H.
    + apply (greedy_ws_suffix _ IH). exact H.
Qed.

Lemma match_star_suffix (fuel : nat) (g : list atom) :
  forall s, suffix_of (match_star fuel g s) s.
Proof.
  induction fuel as [|fuel IH]; intros s; simpl; [apply suffix_refl|].
  destruct (match_atoms g s) as [s'|] eqn:E; [|apply suffix_refl].
  destruct (length s' <? length s)%nat; [|apply suffix_refl].
  apply match_atoms_suffix in E as [pre ->].
  destruct (IH s') as [pre' Hs']. exists (pre ++ pre').
  rewrite <- app_assoc, <- Hs'. reflexivity.
Qed.

Lemma match_at_suffix (p : pattern) (s r : str) :
  match_at p s = Some r -> suffix_of r s.
Proof.
  unfold match_at. destruct (match_atoms (prefix p) s) as [s1|] eqn:E;
    [|discriminate].
  intros H. injection H as <-. apply match_atoms_suffix in E as [pre ->].
  destruct (repeated p) as [g|].
  - destruct (match_star_suffix (length s1) g s1) as [pre' Hs'].
    exists (pre ++ pre'). rewrite <- app_assoc, <- Hs'. reflexivity.
  - exists pre. reflexivity.
Qed.

(** None of the four patterns matches the empty string. *)
Lemma match_at_consumes (p : pattern) (s r : str) :
  opens_with_char p ->
  match_at p s = Some r -> (length r < length s)%nat.
Proof.
  unfold opens_with_char, match_at. intros Hp.
  destruct (prefix p) as [|a atoms] eqn:Ep; [contradiction|].
  destruct (match_atoms (a :: atoms) s) as [s1|] eqn:E; [|discriminate].
  intros H. injection H as <-.
  assert (Hs1 : (length s1 < length s)%nat).
  { destruct a; try contradiction; simpl in E;
      (destruct s as [|ch s]; [discriminate|]).
    - destruct (lit_match c ch); [|discriminate].
      apply match_atoms_suffix, suffix_length in E. simpl. lia.
    - destruct (isspace ch); [|discriminate].
      apply (greedy_ws_suffix _ (match_atoms_suffix atoms)) in E.
      apply suffix_length in E. simpl. lia. }
  destruct (repeated p) as [g|]; [|exact Hs1].
  pose proof (suffix_length _ _ (match_star_suffix (length s1) g s1)). lia.
Qed.

Lemma patterns_open_with_char :
  opens_with_char watermark /\ opens_with_char home_outline
  /\ opens_with_char hamburger /\ opens_with_char spaces.
Proof. repeat split. Qed.

(** Where a pattern does not occur, [re.sub] changes nothing. *)
Lemma sub_no_occurrence (p : pattern) (repl s : str) :
  occurs p s = false -> sub p repl s = s.
Proof.
  unfold sub. induction s as [|c s IH]; intros H; simpl in *; [reflexivity|].
  destruct (match_at p (c :: s)); [discriminate|].
  rewrite IH by exact H. reflexivity.
Qed.

Lemma sub_from_skip (p : pattern) (repl : str) (k : nat) :
  forall s, sub_from p repl k s = sub_from p repl 0 (skipn k s).
Proof.
  induction k as [|k IH]; intros s; [reflexivity|].
  destruct s as [|c s]; [reflexivity|]. simpl. apply IH.
Qed.

Lemma lstrip_length (s : str) : (length (lstrip s) <= length s)%nat.
Proof.
  induction s as [|c s IH]; simpl; [lia|].
  destruct (isspace c); simpl; lia.
Qed.

Lemma lstrip_skipn (s : str) :
  skipn (length s - length (lstrip s)) s = lstrip s.
Proof.
  induction s as [|c s IH]; [reflexivity|]. simpl lstrip.
  pose proof (lstrip_length s) as Hl.
  destruct (isspace c).
  - replace (length (c :: s) - length (lstrip s))%nat
      with (S (length s - length (lstrip s))) by (cbn [length]; lia).
    simpl. exact IH.
  - rewrite Nat.sub_diag. reflexivity.
Qed.

Lemma greedy_ws_all (s : str) : greedy_ws Some s = Some (lstrip s).
Proof.
  induction s as [|c s IH]; simpl; [reflexivity|].
  destruct (isspace c); [rewrite IH|]; reflexivity.
Qed.

(** [\s+] at the head of a text: it matches when the text starts with
    whitespace, and takes the whole run. *)
Lemma match_at_spaces (c : char) (s : str) :
  match_at spaces (c :: s) = if isspace c then Some (lstrip s) else None.
Proof.
  unfold match_at. simpl. destruct (isspace c); [|reflexivity].
  change (fun s0 : str => Some s0) with (@Some str).
  rewrite greedy_ws_all. reflexivity.
Qed.

Lemma sub_spaces_cons (c : char) (s : str) :
  sub spaces (lit " ") (c :: s)
  = if isspace c then 32%N :: sub spaces (lit " ") (lstrip s)
    else c :: sub spaces (lit " ") s.
Proof.
  unfold sub. cbn [sub_from]. rewrite match_at_spaces.
  destruct (isspace c); [|reflexivity].
  pose proof (lstrip_length s) as Hl.
  replace (length (c :: s) - length (lstrip s))%nat
    with (S (length s - length (lstrip s))) by (cbn [length]; lia).
  rewrite sub_from_skip, lstrip_skipn. reflexivity.
Qed.

Lemma collapse_in_run (s : str) : collapse true s = collapse false (lstrip s).
Proof.
  induction s as [|c s IH]; [reflexivity|]. simpl.
  destruct (isspace c) eqn:E; [exact IH|]. simpl. rewrite E. reflexivity.
Qed.

(** [re.sub(r'\s+', ' ', text)] collapses every whitespace run to one
    space. *)
Lemma sub_spaces_collapse (s : str) :
  sub spaces (lit " ") s = collapse false s.
Proof.
  remember (length s) as n eqn:Hn.
  assert (Hle : (length s <= n)%nat) by lia. clear Hn.
  revert s Hle. induction n as [|n IH]; intros s Hle.
  - destruct s; [reflexivity|simpl in Hle; lia].
  - destruct s as [|c s]; [reflexivity|].
    rewrite sub_spaces_cons. simpl collapse. simpl in Hle.
    pose proof (lstrip_length s).
    destruct (isspace c).
    + rewrite IH by lia. rewrite collapse_in_run. reflexivity.
    + rewrite IH by lia. reflexivity.
Qed.

Lemma collapse_single_spaced (s : str) :
  forall b, single_spaced b (collapse b s) = true.
Proof.
  induction s as [|c s IH]; intros b; [reflexivity|]. simpl.
  destruct (isspace c) eqn:E.
  - destruct b; [apply IH|]. simpl. apply IH.
  - simpl. rewrite E. apply IH.
Qed.

Lemma collapse_fixed (s : str) :
  forall b, single_spaced b s = true -> collapse b s = s.
Proof.
  induction s as [|c s IH]; intros b H; [reflexivity|]. simpl in *.
  destruct (isspace c).
  - apply andb_prop in H as [H Hs]. apply andb_prop in H as [Hc Hb].
    apply N.eqb_eq in Hc. apply negb_true_iff in Hb. subst.
    rewrite IH by exact Hs. reflexivity.
  - rewrite IH by exact H. reflexivity.
Qed.

Lemma lstrip_single_spaced (s : str) :
  forall b b', single_spaced b s = true -> single_spaced b' (lstrip s) = true.
Proof.
  induction s as [|c s IH]; intros b b' H; [reflexivity|]. simpl in *.
  destruct (isspace c) eqn:E.
  - apply andb_prop in H as [_ Hs]. apply (IH true). exact Hs.
  - simpl. rewrite E. exact H.
Qed.

Lemma lstrip_app (a b : str) :
  lstrip (a ++ b) = match lstrip a with [] => lstrip b | r => r ++ b end.
Proof.
  induction a as [|c a IH]; [reflexivity|]. simpl.
  destruct (isspace c); [exact IH|reflexivity].
Qed.

(** [rstrip] by recursion from the front. *)
Lemma rstrip_cons (c : char) (s : str) :
  rstrip (c :: s)
  = match rstrip s with
    | [] => if isspace c then [] else [c]
    | r => c :: r
    end.
Proof.
  unfold rstrip. simpl rev. rewrite lstrip_app.
  destruct (lstrip (rev s)) as [|x r] eqn:E.
  - simpl. destruct (isspace c); reflexivity.
  - rewrite rev_app_distr. simpl rev at 1. simpl.
    destruct (rev r ++ [x]) eqn:E2; [|reflexivity].
    apply (f_equal (@length _)) in E2. rewrite length_app in E2.
    simpl in E2. lia.
Qed.

Lemma rstrip_single_spaced (s : str) :
  forall b, single_spaced b s = true -> single_spaced b (rstrip s) = true.
Proof.
  induction s as [|c s IH]; intros b H; [reflexivity|].
  rewrite rstrip_cons. simpl in H.
  destruct (isspace c) eqn:E.
  - apply andb_prop in H as [H Hs]. specialize (IH true Hs).
    destruct (rstrip s) as [|x r]; [reflexivity|].
    simpl single_spaced at 1. rewrite E, H. exact IH.
  - specialize (IH false H).
    destruct (rstrip s) as [|x r]; simpl; rewrite E; [reflexivity|exact IH].
Qed.

Lemma lstrip_idempotent (s : str) : lstrip (lstrip s) = lstrip s.
Proof.
  induction s as [|c s IH]; [reflexivity|]. simpl.
  destruct (isspace c) eqn:E; [exact IH|]. simpl. rewrite E. reflexivity.
Qed.

Lemma rstrip_idempotent (s : str) : rstrip (rstrip s) = rstrip s.
Proof.
  unfold rstrip. rewrite rev_involutive, lstrip_idempotent. reflexivity.
Qed.

Lemma lstrip_rstrip_lstrip (s : str) :
  lstrip (rstrip (lstrip s)) = rstrip (lstrip s).
Proof.
  destruct (lstrip_head s) as [E | (c & r & E & Hc)]; rewrite E.
  - reflexivity.
  - rewrite rstrip_cons.
    destruct (rstrip r); try rewrite Hc; simpl; rewrite Hc; reflexivity.
Qed.

(** [strip] is idempotent. *)
Lemma strip_idempotent (s : str) : strip (strip s) = strip s.
Proof.
  unfold strip. rewrite lstrip_rstrip_lstrip. apply rstrip_idempotent.
Qed.

Lemma strip_single_spaced (s : str) :
  single_spaced false s = true -> single_spaced false (strip s) = true.
Proof.
  intros H. unfold strip. apply rstrip_single_spaced.
  apply (lstrip_single_spaced s false false). exact H.
Qed.

(** Cleaned text is normalised: single spaces only, none at the edges. *)
Lemma clean_text_normal (s : str) :
  single_spaced false (clean_text s) = true
  /\ strip (clean_text s) = clean_text s.
Proof.
  unfold clean_text. split.
  - apply strip_single_spaced. rewrite sub_spaces_collapse.
    apply collapse_single_spaced.
  - apply strip_idempotent.
Qed.

End CleaningFacts.

Section CleaningClaims.

Import Re.

Lemma sub_from_length (p : pattern) (s : str) :
  forall k, (length (sub_from p [] k s) <= length s)%nat.
Proof.
  induction s as [|c s IH]; intros k; [simpl; lia|].
  cbn [sub_from]. destruct k as [|k].
  - destruct (match_at p (c :: s)) as [rest|].
    + destruct (length (c :: s) - length rest)%nat as [|k'].
      * cbn [length]. specialize (IH 0%nat). lia.
      * cbn [app length]. specialize (IH k'). lia.
    + cbn [length]. specialize (IH 0%nat). lia.
  - cbn [length]. specialize (IH k). lia.
Qed.

(** Where a pattern occurs, removing it makes the text shorter. *)
Lemma sub_occurrence_shorter (p : pattern) (s : str) :
  opens_with_char p -> occurs p s = true ->
  (length (sub p [] s) < length s)%nat.
Proof.
  intros Hp. unfold sub. induction s as [|c s IH]; intros H;
    [discriminate|].
  cbn [occurs] in H. cbn [sub_from].
  destruct (match_at p (c :: s)) as [rest|] eqn:E.
  - apply (match_at_consumes p _ _ Hp) in E.
    destruct (length (c :: s) - length rest)%nat as [|k] eqn:En; [lia|].
    pose proof (sub_from_length p s k). cbn [app length]. lia.
  - specialize (IH H). cbn [length]. lia.
Qed.

Lemma collapse_length (s : str) :
  forall b, (length (collapse b s) <= length s)%nat.
Proof.
  induction s as [|c s IH]; intros b; simpl; [lia|].
  destruct (isspace c); [destruct b|]; simpl;
    [specialize (IH true)|specialize (IH true)|specialize (IH false)]; lia.
Qed.

Lemma strip_length (s : str) : (length (strip s) <= length s)%nat.
Proof.
  unfold strip, rstrip. rewrite length_rev.
  pose proof (lstrip_length (rev (lstrip s))) as H1.
  rewrite length_rev in H1. pose proof (lstrip_length s). lia.
Qed.

(** Cleaning never makes a text longer. *)
Lemma clean_text_length (s : str) : (length (clean_text s) <= length s)%nat.
Proof.
  unfold clean_text.
  pose proof (strip_length
    (sub spaces (lit " ")
       (sub hamburger [] (sub home_outline [] (sub watermark [] s))))).
  rewrite sub_spaces_collapse in *.
  pose proof (collapse_length
    (sub hamburger [] (sub home_outline [] (sub watermark [] s))) false).
  pose proof (sub_from_length hamburger
    (sub home_outline [] (sub watermark [] s)) 0).
  pose proof (sub_from_length home_outline (sub watermark [] s) 0).
  pose proof (sub_from_length watermark s 0).
  unfold sub in *. lia.
Qed.

(** C8, as stated, fails: removing the navigation text from inside a
    watermark leaves a watermark, which only a second cleaning removes. *)
Lemma clean_text_not_idempotent :
  clean_text (lit "STRICTLY Home outline CONFIDENTIAL")
  = lit "STRICTLY CONFIDENTIAL"
  /\ clean_text (clean_text (lit "STRICTLY Home outline CONFIDENTIAL")) = []
  /\ clean_text (clean_text (lit "STRICTLY Home outline CONFIDENTIAL"))
     <> clean_text (lit "STRICTLY Home outline CONFIDENTIAL").
Proof. repeat split. vm_compute. discriminate. Qed.

(** C8, amended. Cleaned text has its whitespace runs collapsed to single
    spaces and its edges trimmed, and cleaning it a second time changes
    nothing exactly when no watermark and no navigation boilerplate is left
    in it after the first cleaning. *)
Theorem clean_text_idempotent_when_clean (s : str) :
  single_spaced false (clean_text s) = true
  /\ strip (clean_text s) = clean_text s
  /\ (clean_text (clean_text s) = clean_text s
      <-> occurs watermark (clean_text s) = false
          /\ occurs home_outline (clean_text s) = false
          /\ occurs hamburger (clean_text s) = false).
Proof.
  destruct (clean_text_normal s) as [Hss Hst].
  split; [exact Hss|]. split; [exact Hst|].
  set (t := clean_text s) in *.
  destruct patterns_open_with_char as (Hw & Hh & Hb & _).
  split.
  - intros Hid.
    pose proof (sub_from_length watermark t 0) as L1.
    pose proof (sub_from_length home_outline (sub watermark [] t) 0) as L2.
    pose proof (sub_from_length hamburger
                  (sub home_outline [] (sub watermark [] t)) 0) as L3.
    pose proof (collapse_length
      (sub hamburger [] (sub home_outline [] (sub watermark [] t))) false)
      as L4.
    pose proof (strip_length
      (sub spaces (lit " ")
         (sub hamburger [] (sub home_outline [] (sub watermark [] t)))))
      as L5.
    rewrite sub_spaces_collapse in L5.
    assert (Hlen : length (clean_text t) = length t) by (rewrite Hid; reflexivity).
    unfold clean_text in Hlen. rewrite sub_spaces_collapse in Hlen.
    fold (sub watermark [] t) in L1.
    fold (sub home_outline [] (sub watermark [] t)) in L2.
    fold (sub hamburger [] (sub home_outline [] (sub watermark [] t))) in L3.
    destruct (occurs watermark t) eqn:E1.
    { pose proof (sub_occurrence_shorter watermark t Hw E1). lia. }
    rewrite (sub_no_occurrence watermark [] t E1) in *.
    destruct (occurs home_outline t) eqn:E2.
    { pose proof (sub_occurrence_shorter home_outline t Hh E2). lia. }
    rewrite (sub_no_occurrence home_outline [] t E2) in *.
    destruct (occurs hamburger t) eqn:E3.
    { pose proof (sub_occurrence_shorter hamburger t Hb E3). lia. }
    repeat split.
  - intros (E1 & E2 & E3). unfold clean_text at 1. fold t.
    rewrite (sub_no_occurrence watermark [] t E1).
    rewrite (sub_no_occurrence home_outline [] t E2).
    rewrite (sub_no_occurrence hamburger [] t E3).
    rewrite sub_spaces_collapse, (collapse_fixed t false Hss). exact Hst.
Qed.

(** A concrete run: a watermark between words is removed for good by the
    first cleaning. *)
Lemma clean_text_idempotent_when_clean_witness :
  clean_text (clean_text (lit "  Revenue STRICTLY  CONFIDENTIAL grew "))
  = clean_text (lit "  Revenue STRICTLY  CONFIDENTIAL grew ").
Proof.
  exact (proj2 (proj2 (proj2 (clean_text_idempotent_when_clean
                                (lit "  Revenue STRICTLY  CONFIDENTIAL grew "))))
           ltac:(vm_compute; repeat split)).
Defined.

End CleaningClaims.

(* ===================================================================== *)
(** * The chunker *)
(* ===================================================================== *)

Section ChunkerFacts.

Variable self : PDFProcessor.

Let size := chunk_size self.
Let step := chunk_size self - chunk_overlap self.

Lemma ids_from_S (cid : Z) (n : nat) :
  ids_from cid (S n) = cid :: ids_from (cid + 1) n.
Proof.
  unfold ids_from. simpl. rewrite Z.add_0_r. f_equal.
  rewrite <- seq_shift, map_map. apply map_ext. intros i. lia.
Qed.

Lemma ids_from_app (cid : Z) (n m : nat) :
  ids_from cid (n + m) = ids_from cid n ++ ids_from (cid + Z.of_nat n) m.
Proof.
  revert cid. induction n as [|n IH]; intros cid.
  - simpl. rewrite Z.add_0_r. reflexivity.
  - replace (S n + m)%nat with (S (n + m)) by lia.
    rewrite !ids_from_S, IH.
    replace (cid + Z.of_nat (S n)) with (cid + 1 + Z.of_nat n) by lia.
    reflexivity.
Qed.

(** Whatever the loop returns extends the accumulator by chunks of the
    current page numbered consecutively from [cid]. *)
Lemma chunk_loop_ids (fuel : nat) :
  forall words page acc cid start res,
    chunk_loop fuel self words page acc cid start = Some res ->
    exists new,
      res = acc ++ new
      /\ map chunk_id new = ids_from cid (length new)
      /\ Forall (fun c => page_num c = page) new.
Proof.
  induction fuel as [|fuel IH]; intros words page acc cid start res H;
    simpl in H; [discriminate|].
  destruct (start <? len words).
  - apply IH in H as (new & -> & Hids & Hpg).
    eexists (_ :: new). rewrite <- app_assoc. split; [reflexivity|]. split.
    + simpl length. rewrite ids_from_S. simpl. f_equal. exact Hids.
    + constructor; [reflexivity|exact Hpg].
  - injection H as <-. exists []. rewrite app_nil_r.
    repeat split; constructor.
Qed.

(** With a positive step the loop ends within [len(words) - start + 1]
    iterations. *)
Lemma chunk_loop_terminates (fuel : nat) :
  0 < step ->
  forall words page acc cid start,
    (Z.to_nat (len words - start) < fuel)%nat ->
    exists res, chunk_loop fuel self words page acc cid start = Some res.
Proof.
  intros Hstep. induction fuel as [|fuel IH];
    intros words page acc cid start Hfuel; [lia|].
  simpl. destruct (start <? len words) eqn:E.
  - apply IH. apply Z.ltb_lt in E. unfold step in Hstep. lia.
  - eexists. reflexivity.
Qed.

(** With a step that is not positive the loop never leaves a non-empty
    token list: [start] stays at or below 0. *)
Lemma chunk_loop_stuck (fuel : nat) :
  step <= 0 ->
  forall words page acc cid start,
    words <> [] -> start <= 0 ->
    chunk_loop fuel self words page acc cid start = None.
Proof.
  intros Hstep. induction fuel as [|fuel IH];
    intros words page acc cid start Hne Hstart; [reflexivity|].
  simpl.
  assert (Hlen : 0 < len words).
  { destruct words; [contradiction|]. unfold len. simpl length. lia. }
  assert (E : (start <? len words) = true) by (apply Z.ltb_lt; lia).
  rewrite E. apply IH; [exact Hne|]. unfold step in Hstep. lia.
Qed.

(** More fuel does not change a result. *)
Lemma chunk_loop_more_fuel (fuel : nat) :
  forall words page acc cid start res extra,
    chunk_loop fuel self words page acc cid start = Some res ->
    chunk_loop (fuel + extra) self words page acc cid start = Some res.
Proof.
  induction fuel as [|fuel IH]; intros words page acc cid start res extra H;
    simpl in *; [discriminate|].
  destruct (start <? len words); [apply IH; exact H | exact H].
Qed.

Lemma num_windows_lt (n : Z) (i : nat) :
  0 < step -> 0 <= n ->
  (i < Sliding.num_windows n step)%nat <-> Z.of_nat i * step < n.
Proof.
  intros Hs Hn. unfold Sliding.num_windows.
  pose proof (Z.div_mod (n + step - 1) step ltac:(lia)) as Hdm.
  pose proof (Z.mod_pos_bound (n + step - 1) step Hs) as Hmod.
  assert (Hq : 0 <= (n + step - 1) / step) by (apply Z.div_pos; lia).
  set (q := (n + step - 1) / step) in *.
  split; intros H.
  - assert (Z.of_nat i + 1 <= q) by lia. nia.
  - assert (Z.of_nat i < q) by nia. lia.
Qed.

(** The loop started at window position [i] produces the remaining [k]
    windows of the sliding-window description. *)
Lemma chunk_loop_sliding (words : list str) (page cid0 : Z) :
  0 <= chunk_overlap self -> chunk_overlap self < chunk_size self ->
  forall k i fuel acc,
    (i + k = Sliding.num_windows (len words) step)%nat ->
    (k < fuel)%nat ->
    chunk_loop fuel self words page acc (cid0 + Z.of_nat i)
               (Z.of_nat i * step)
    = Some (acc ++ map (Sliding.chunk_at words size step page cid0)
                       (seq i k)).
Proof.
  intros Hov Hlt.
  assert (Hstep : 0 < step) by (unfold step; lia).
  induction k as [|k IH]; intros i fuel acc Hik Hfuel;
    (destruct fuel as [|fuel]; [lia|]); simpl.
  - assert (E : (Z.of_nat i * step <? len words) = false).
    { apply Z.ltb_ge. apply Z.nlt_ge. intros Hc.
      apply (num_windows_lt (len words) i Hstep (len_nonneg words)) in Hc.
      lia. }
    rewrite E, app_nil_r. reflexivity.
  - assert (Hi : Z.of_nat i * step < len words).
    { apply (num_windows_lt (len words) i Hstep (len_nonneg words)). lia. }
    assert (E : (Z.of_nat i * step <? len words) = true)
      by (apply Z.ltb_lt; exact Hi).
    rewrite E.
    replace (cid0 + Z.of_nat i + 1) with (cid0 + Z.of_nat (S i)) by lia.
    replace (Z.of_nat i * step + (chunk_size self - chunk_overlap self))
      with (Z.of_nat (S i) * step) by (unfold step; lia).
    rewrite IH by lia.
    rewrite <- app_assoc. simpl. do 3 f_equal.
    unfold Sliding.chunk_at. f_equal.
    f_equal. rewrite slice_window by (fold size; lia).
    unfold Sliding.window_at. fold size. do 2 f_equal. lia.
Qed.

Lemma chunk_text_more_fuel (fuel extra : nat) (t : str) (page cid : Z)
    (res : list Chunk) :
  chunk_text fuel self t page cid = Some res ->
  chunk_text (fuel + extra) self t page cid = Some res.
Proof.
  unfold chunk_text. destruct (negb (truthy (split t))); [trivial|].
  apply chunk_loop_more_fuel.
Qed.

Lemma chunk_text_ids (fuel : nat) (t : str) (page cid : Z) (res : list Chunk) :
  chunk_text fuel self t page cid = Some res ->
  map chunk_id res = ids_from cid (length res)
  /\ Forall (fun c => page_num c = page) res.
Proof.
  unfold chunk_text. destruct (negb (truthy (split t))).
  - intros H. injection H as <-. split; constructor.
  - intros H. apply chunk_loop_ids in H as (new & -> & Hids & Hpg).
    simpl. split; assumption.
Qed.

Lemma chunk_text_terminates (fuel : nat) (t : str) (page cid : Z) :
  0 < step ->
  (length (split t) < fuel)%nat ->
  exists res, chunk_text fuel self t page cid = Some res.
Proof.
  intros Hs Hf. unfold chunk_text.
  destruct (negb (truthy (split t))); [eexists; reflexivity|].
  apply chunk_loop_terminates; [exact Hs|]. unfold len. lia.
Qed.

(** The page loop: the accumulator is extended, and the new chunks are
    numbered consecutively from the counter. *)
Lemma process_pages_ids (fuel : nat) (pages : list (Z * str)) :
  forall acc counter res,
    process_pages fuel self pages acc counter = Some res ->
    exists new,
      res = acc ++ new
      /\ map chunk_id new = ids_from counter (length new).
Proof.
  induction pages as [|[page t] pages IH]; intros acc counter res H;
    simpl in H.
  - injection H as <-. exists []. rewrite app_nil_r. split; reflexivity.
  - destruct (chunk_text fuel self t page counter) as [pc|] eqn:E;
      [|discriminate].
    apply IH in H as (new & -> & Hids).
    apply chunk_text_ids in E as [Epc _].
    exists (pc ++ new). rewrite app_assoc. split; [reflexivity|].
    rewrite map_app, length_app, ids_from_app, Epc, Hids.
    unfold len. reflexivity.
Qed.

(** The accumulator only prefixes the result. *)
Lemma process_pages_acc (fuel : nat) (pages : list (Z * str)) :
  forall acc counter,
    process_pages fuel self pages acc counter
    = option_map (app acc) (process_pages fuel self pages [] counter).
Proof.
  induction pages as [|[page t] pages IH]; intros acc counter; simpl.
  - rewrite app_nil_r. reflexivity.
  - destruct (chunk_text fuel self t page counter) as [pc|]; [|reflexivity].
    rewrite IH. rewrite (IH pc).
    destruct (process_pages fuel self pages [] (counter + len pc));
      simpl; [|reflexivity].
    rewrite app_assoc. reflexivity.
Qed.

(** Processing [before ++ after] is processing [before], then [after] with
    the counter at the number of chunks made so far. *)
Lemma process_pages_app (fuel : nat) (before after : list (Z * str)) :
  forall acc counter,
    process_pages fuel self (before ++ after) acc counter
    = match process_pages fuel self before acc counter with
      | Some cs =>
          process_pages fuel self after cs
                        (counter + (len cs - len acc))
      | None => None
      end.
Proof.
  induction before as [|[page t] before IH]; intros acc counter; simpl.
  - f_equal. lia.
  - destruct (chunk_text fuel self t page counter) as [pc|] eqn:E;
      [|reflexivity].
    rewrite IH.
    destruct (process_pages fuel self before (acc ++ pc) (counter + len pc))
      as [cs|] eqn:E2; [|reflexivity].
    f_equal. rewrite len_app. lia.
Qed.

Lemma process_pages_more_fuel (fuel extra : nat) (pages : list (Z * str)) :
  forall acc counter res,
    process_pages fuel self pages acc counter = Some res ->
    process_pages (fuel + extra) self pages acc counter = Some res.
Proof.
  induction pages as [|[page t] pages IH]; intros acc counter res H;
    simpl in *; [exact H|].
  destruct (chunk_text fuel self t page counter) as [pc|] eqn:E;
    [|discriminate].
  rewrite (chunk_text_more_fuel _ extra _ _ _ _ E). apply IH. exact H.
Qed.

Lemma process_pages_terminates (pages : list (Z * str)) :
  0 < step ->
  forall fuel acc counter,
    (enough_fuel pages <= fuel)%nat ->
    exists res, process_pages fuel self pages acc counter = Some res.
Proof.
  intros Hs. induction pages as [|[page t] pages IH];
    intros fuel acc counter Hf; simpl.
  - eexists. reflexivity.
  - unfold enough_fuel in Hf. simpl in Hf.
    destruct (chunk_text_terminates fuel t page counter Hs) as [pc ->];
      [lia|].
    apply IH. unfold enough_fuel. lia.
Qed.

End ChunkerFacts.

Section ChunkerClaims.

Lemma num_windows_le (n step : Z) :
  0 < step -> 0 <= n -> (Z.of_nat (Sliding.num_windows n step) <= n).
Proof.
  intros Hs Hn. unfold Sliding.num_windows.
  assert (Hq : 0 <= (n + step - 1) / step) by (apply Z.div_pos; lia).
  rewrite Z2Nat.id by exact Hq.
  pose proof (Z.div_mod (n + step - 1) step ltac:(lia)) as Hdm.
  pose proof (Z.mod_pos_bound (n + step - 1) step Hs) as Hmod.
  nia.
Qed.

Lemma sliding_chunks_nil (window step page cid0 : Z) :
  0 < step -> Sliding.sliding_chunks [] window step page cid0 = [].
Proof.
  intros Hs. unfold Sliding.sliding_chunks, Sliding.num_windows.
  change (len (@nil str)) with 0.
  replace (0 + step - 1) with (step - 1) by lia.
  rewrite Z.div_small by lia. reflexivity.
Qed.

(** A text with a character that is not whitespace has a token. *)
Lemma split_from_nonempty (s cur : str) :
  cur <> [] -> split_from cur s <> [].
Proof.
  revert cur. induction s as [|c s IH]; intros cur Hcur; simpl.
  - destruct cur; [contradiction|discriminate].
  - destruct (isspace c).
    + destruct cur; [contradiction|discriminate].
    + apply IH. discriminate.
Qed.

Lemma split_nonempty (s : str) :
  existsb (fun c => negb (isspace c)) s = true -> split s <> [].
Proof.
  unfold split. generalize (@nil char) as cur.
  induction s as [|c s IH]; intros cur H; simpl in *; [discriminate|].
  destruct (isspace c); simpl in H.
  - destruct cur; [apply IH; exact H|discriminate].
  - apply split_from_nonempty. discriminate.
Qed.

Lemma strip_has_nonspace (s : str) :
  strip s <> [] -> existsb (fun c => negb (isspace c)) (strip s) = true.
Proof.
  unfold strip, rstrip. intros Hne.
  destruct (lstrip_head (rev (lstrip s))) as [E | (c & r & E & Hc)].
  - rewrite E in Hne. contradiction.
  - rewrite E. apply existsb_exists. exists c. split.
    + apply in_rev. rewrite rev_involutive. left. reflexivity.
    + rewrite Hc. reflexivity.
Qed.

Lemma clean_text_tokens (raw : str) :
  clean_text raw <> [] -> split (clean_text raw) <> [].
Proof.
  intros H. apply split_nonempty. unfold clean_text in *.
  apply strip_has_nonspace. exact H.
Qed.

(** Every page that [extract_text_by_page] keeps has at least one token. *)
Lemma extract_pages_tokens (reader_pages : list (option str)) :
  forall i, Forall (fun p => split (snd p) <> []) (extract_pages i reader_pages).
Proof.
  induction reader_pages as [|[raw|] rest IH]; intros i; simpl.
  - constructor.
  - destruct (truthy (strip raw)); [|apply IH].
    destruct (truthy (clean_text raw)) eqn:E; [|apply IH].
    constructor; [|apply IH]. simpl. apply clean_text_tokens.
    destruct (clean_text raw); [discriminate|discriminate].
  - apply IH.
Qed.

End ChunkerClaims.

(** ** Claims on the chunker *)

(** Windows of 3 tokens with overlap 2 on the three tokens of [a b c]: the
    loop starts a window at every token, so the chunks hold 3, 2 and 1
    tokens, and the second of the three is short although it is not the
    last. *)
Lemma chunk_text_short_before_last :
  0 <= chunk_overlap (mkPDFProcessor 3 2)
  /\ chunk_overlap (mkPDFProcessor 3 2) < chunk_size (mkPDFProcessor 3 2)
  /\ chunk_text 4 (mkPDFProcessor 3 2) (lit "a b c") 1 0
     = Some [mkChunk (lit "a b c") 1 0; mkChunk (lit "b c") 1 1;
             mkChunk (lit "c") 1 2]
  /\ map (fun c => len (split (text c)))
         [mkChunk (lit "a b c") 1 0; mkChunk (lit "b c") 1 1;
          mkChunk (lit "c") 1 2]
     = [3; 2; 1]
  /\ ~ Sliding.only_last_short
         [mkChunk (lit "a b c") 1 0; mkChunk (lit "b c") 1 1;
          mkChunk (lit "c") 1 2] 3.
Proof.
  split; [simpl; lia|]. split; [simpl; lia|].
  split; [reflexivity|]. split; [reflexivity|].
  intros H.
  specialize (H 1%nat (mkChunk (lit "b c") 1 1) eq_refl
                ltac:(cbn [length]; lia)).
  vm_compute in H. discriminate.
Qed.

(** C7, amended. For window > overlap >= 0, [chunk_text] splits the page
    text into whitespace-delimited tokens and returns one chunk per position
    of a window of [chunk_size] tokens moved by
    [chunk_size - chunk_overlap]: chunk [i] holds the tokens of window [i]
    joined by single spaces, on the given page, numbered
    [start_chunk_id + i]. Window [i] holds
    min(window, tokens - i * step) tokens, so it is never empty and never
    padded, and it is short exactly when it starts less than [window] tokens
    before the end: with an overlap above zero that can be several windows
    at the end, not only the last. No tokens, no chunks. *)
Theorem chunk_text_sliding_window (self : PDFProcessor) (t : str)
    (page start_chunk_id : Z) :
  0 <= chunk_overlap self ->
  chunk_overlap self < chunk_size self ->
  let words := split t in
  let window := chunk_size self in
  let step := chunk_size self - chunk_overlap self in
  Forall Sliding.token words
  /\ (forall fuel, (length words < fuel)%nat ->
        chunk_text fuel self t page start_chunk_id
        = Some (Sliding.sliding_chunks words window step page start_chunk_id))
  /\ (forall i, (i < Sliding.num_windows (len words) step)%nat ->
        length (Sliding.window_at words window step i)
        = Nat.min (Z.to_nat window) (length words - i * Z.to_nat step)
        /\ (0 < length (Sliding.window_at words window step i))%nat
        /\ (len (Sliding.window_at words window step i) < window
            <-> len words < Z.of_nat i * step + window))
  /\ (words = [] ->
      Sliding.sliding_chunks words window step page start_chunk_id = []).
Proof.
  intros Hov Hlt words window step.
  assert (Hstep : 0 < step) by (unfold step; lia).
  split; [apply split_tokens|]. split; [|split].
  - intros fuel Hfuel. unfold chunk_text. fold words.
    destruct words as [|w ws] eqn:Ew.
    + rewrite sliding_chunks_nil by exact Hstep. reflexivity.
    + simpl negb. cbv iota. rewrite <- Ew in *.
      pose proof (chunk_loop_sliding self words page start_chunk_id Hov Hlt
                    (Sliding.num_windows (len words) step) 0%nat fuel [])
        as H.
      simpl in H. rewrite Z.add_0_r in H. apply H; [reflexivity|].
      pose proof (num_windows_le (len words) step Hstep (len_nonneg words)).
      unfold len in *. lia.
  - intros i Hi.
    apply (num_windows_lt self (len words) i Hstep (len_nonneg words)) in Hi.
    unfold Sliding.window_at, len.
    rewrite length_firstn, length_skipn.
    assert (Z.of_nat (i * Z.to_nat step) < len words).
    { rewrite Nat2Z.inj_mul, Z2Nat.id by lia. exact Hi. }
    assert (Z.of_nat (i * Z.to_nat step) = Z.of_nat i * step).
    { rewrite Nat2Z.inj_mul, Z2Nat.id by lia. reflexivity. }
    split; [reflexivity|].
    unfold window, len in *. lia.
  - intros ->. apply sliding_chunks_nil. exact Hstep.
Qed.

(** A concrete run: window 3, overlap 1 on five tokens gives the windows at
    tokens 0, 2 and 4. *)
Lemma chunk_text_sliding_window_witness :
  chunk_text 6 (mkPDFProcessor 3 1) (lit "a b  c d e") 2 7
  = Some [mkChunk (lit "a b c") 2 7; mkChunk (lit "c d e") 2 8;
          mkChunk (lit "e") 2 9].
Proof.
  exact (proj1 (proj2 (chunk_text_sliding_window (mkPDFProcessor 3 1)
                         (lit "a b  c d e") 2 7 ltac:(simpl; lia)
                         ltac:(simpl; lia)))
           6%nat ltac:(vm_compute; lia)).
Defined.

(** C6. Over a whole document the chunk numbers are 0, 1, 2, ... in the
    order the chunks are produced: the page loop hands every page the number
    of chunks made so far, so a page continues where the previous pages
    stopped, and a page without chunks leaves the counter as it is. The
    processing ends whenever the step is positive. *)
Theorem chunk_index_contiguous (self : PDFProcessor)
    (pages : list (Z * str)) :
  (forall fuel cs,
      process_pages fuel self pages [] 0 = Some cs ->
      map chunk_id cs = ids_from 0 (length cs)
      /\ forall before page t after,
          pages = before ++ (page, t) :: after ->
          exists cs1 pc cs2,
            cs = cs1 ++ pc ++ cs2
            /\ process_pages fuel self before [] 0 = Some cs1
            /\ chunk_text fuel self t page (len cs1) = Some pc
            /\ map chunk_id pc = ids_from (len cs1) (length pc)
            /\ Forall (fun c => page_num c = page) pc)
  /\ (chunk_overlap self < chunk_size self ->
      exists cs, forall fuel, (enough_fuel pages <= fuel)%nat ->
        process_pages fuel self pages [] 0 = Some cs).
Proof.
  split.
  - intros fuel cs H. split.
    + apply process_pages_ids in H as (new & -> & Hids). exact Hids.
    + intros before page t after ->.
      rewrite process_pages_app in H.
      destruct (process_pages fuel self before [] 0) as [cs1|] eqn:E1;
        [|discriminate].
      change (len (@nil Chunk)) with 0 in H.
      replace (0 + (len cs1 - 0)) with (len cs1) in H by lia.
      cbn [process_pages] in H.
      destruct (chunk_text fuel self t page (len cs1)) as [pc|] eqn:E2;
        [|discriminate].
      apply process_pages_ids in H as (cs2 & -> & _).
      exists cs1, pc, cs2. rewrite <- app_assoc.
      destruct (chunk_text_ids _ _ _ _ _ _ E2) as [Hids Hpg].
      repeat split; assumption.
  - intros Hlt.
    destruct (process_pages_terminates self pages ltac:(lia)
                (enough_fuel pages) [] 0 (le_n _)) as [cs Hcs].
    exists cs. intros fuel Hf.
    replace fuel with (enough_fuel pages + (fuel - enough_fuel pages))%nat
      by lia.
    apply process_pages_more_fuel. exact Hcs.
Qed.

(** A concrete run on three pages, the second without text: the numbers
    run 0 to 3 across the pages. *)
Lemma chunk_index_contiguous_witness :
  map chunk_id
    [mkChunk (lit "a b") 1 0; mkChunk (lit "b c") 1 1; mkChunk (lit "c") 1 2;
     mkChunk (lit "d") 3 3]
  = ids_from 0 4.
Proof.
  exact (proj1 (proj1 (chunk_index_contiguous (mkPDFProcessor 2 1)
                         [(1, lit "a b c"); (2, lit "  "); (3, lit "d")])
                  4%nat _ eq_refl)).
Defined.

Lemma chunk_text_stuck (self : PDFProcessor) (fuel : nat) (t : str)
    (page cid : Z) :
  chunk_size self <= chunk_overlap self ->
  split t <> [] ->
  chunk_text fuel self t page cid = None.
Proof.
  intros Hle Hne. unfold chunk_text.
  destruct (split t) as [|w ws] eqn:E; [contradiction|].
  simpl negb. cbv iota. apply chunk_loop_stuck; [lia|discriminate|lia].
Qed.

Lemma process_pdf_stuck (self : PDFProcessor) (fuel : nat)
    (reader_pages : list (option str)) :
  chunk_size self <= chunk_overlap self ->
  extract_text_by_page reader_pages <> [] ->
  process_pdf fuel self reader_pages = None.
Proof.
  intros Hle Hne. unfold process_pdf.
  pose proof (extract_pages_tokens reader_pages 1) as Htok.
  fold (extract_text_by_page reader_pages) in Htok.
  destruct (extract_text_by_page reader_pages) as [|[page t] rest];
    [contradiction|].
  inversion Htok as [|? ? Ht _]; subst. simpl in Ht.
  simpl. rewrite chunk_text_stuck by assumption. reflexivity.
Qed.

Section Termination.

Variable embed : str -> list float.
Variable normalize_L2 : list (list float) -> list (list float).

(** C10. [chunk_text] ends on every text when chunk_size > chunk_overlap
    >= 0: the loop needs at most one iteration per token plus the closing
    test. When chunk_overlap >= chunk_size and the text has a token, [start]
    never passes the end of the token list and the loop runs for ever.
    Nothing checks the two numbers: the constructor stores them as given, and
    [main] hands the parsed integers to the session set-up, which then hangs
    in the chunker on a document with any text. *)
Theorem chunk_text_termination (self : PDFProcessor) (t : str)
    (page start_chunk_id : Z) :
  (0 <= chunk_overlap self -> chunk_overlap self < chunk_size self ->
   forall fuel, (length (split t) < fuel)%nat ->
     exists cs, chunk_text fuel self t page start_chunk_id = Some cs)
  /\ (chunk_size self <= chunk_overlap self -> split t <> [] ->
      forall fuel, chunk_text fuel self t page start_chunk_id = None)
  /\ PDFProcessor_init (chunk_size self) (chunk_overlap self) = self
  /\ (forall fuel env path_exists read_pdf path k session_llm,
        chunk_size self <= chunk_overlap self ->
        path <> [] ->
        path_exists path = true ->
        LLMInterface_init env None None = Ok session_llm ->
        extract_text_by_page (read_pdf path) <> [] ->
        main embed normalize_L2 fuel env path_exists read_pdf
             (Parsed
                (mkArgs (Some path) (chunk_size self) (chunk_overlap self) k))
        = Hangs).
Proof.
  split; [|split; [|split]].
  - intros _ Hlt fuel Hfuel.
    apply chunk_text_terminates; [lia|exact Hfuel].
  - intros Hle Hne fuel. apply chunk_text_stuck; assumption.
  - destruct self. reflexivity.
  - intros fuel env path_exists read_pdf path k session_llm Hle Hp Hex Hllm
      Hpages.
    unfold main. simpl pdf_path.
    destruct path as [|c p]; [contradiction|].
    rewrite Hex. simpl negb. cbv iota.
    unfold RAGSystem_init. simpl arg_chunk_size. simpl arg_chunk_overlap.
    rewrite Hllm. simpl bind.
    rewrite process_pdf_stuck; [reflexivity| |exact Hpages].
    destruct self. simpl in *. exact Hle.
Qed.

End Termination.

(** Concrete runs: sizes 3/1 end on two tokens; sizes 5/5 never end on the
    same text, neither in [chunk_text] nor in [main]. *)
Lemma chunk_text_termination_witness :
  (exists cs, chunk_text 3 (mkPDFProcessor 3 1) (lit "a b") 1 0 = Some cs)
  /\ chunk_text 1000 (mkPDFProcessor 5 5) (lit "a b") 1 0 = None
  /\ main (fun _ => []) (fun v => v) 1000
          (mkEnv None None NoPackage NoPackage)
          (fun _ => true) (fun _ => [Some (lit "a b")])
          (Parsed (mkArgs (Some (lit "doc.pdf")) 5 5 5))
     = Hangs.
Proof.
  split; [|split].
  - exact (proj1 (chunk_text_termination (fun _ => []) (fun v => v)
                    (mkPDFProcessor 3 1) (lit "a b") 1 0)
             ltac:(simpl; lia) ltac:(simpl; lia) 3%nat
             ltac:(vm_compute; lia)).
  - exact (proj1 (proj2 (chunk_text_termination (fun _ => []) (fun v => v)
                           (mkPDFProcessor 5 5) (lit "a b") 1 0))
             ltac:(simpl; lia) ltac:(vm_compute; discriminate) 1000%nat).
  - exact (proj2 (proj2 (proj2
             (chunk_text_termination (fun _ => []) (fun v => v)
                (mkPDFProcessor 5 5) (lit "a b") 1 0)))
             1000%nat (mkEnv None None NoPackage NoPackage)
             (fun _ => true) (fun _ => [Some (lit "a b")]) (lit "doc.pdf") 5
             (mkLLMInterface false false)
             ltac:(simpl; lia) ltac:(vm_compute; discriminate) eq_refl
             eq_refl ltac:(vm_compute; discriminate)).
Defined.

(* ===================================================================== *)
(** * The deterministic composer *)
(* ===================================================================== *)

Section CitationFacts.

Import Citation.

Lemma lit_uint_digits (u : Decimal.uint) :
  forallb is_digit (lit (NilEmpty.string_of_uint u)) = true.
Proof. induction u; simpl; try reflexivity; exact IHu. Qed.

Lemma skip_digits_app (ds : str) (x : char) (rest : str) :
  forallb is_digit ds = true -> is_digit x = false ->
  skip_digits (ds ++ x :: rest) = x :: rest.
Proof.
  intros Hds Hx. induction ds as [|c ds IH]; simpl in *.
  - rewrite Hx. reflexivity.
  - apply andb_prop in Hds as [Hc Hds]. rewrite Hc. apply IH. exact Hds.
Qed.

(** The decimal digits of a positive number do not start with 0. *)
Lemma to_uint_head (p : positive) :
  exists c ds, lit (NilEmpty.string_of_uint (Pos.to_uint p)) = c :: ds
               /\ is_digit c = true /\ c <> 48%N
               /\ forallb is_digit ds = true.
Proof.
  pose proof (DecimalPos.Unsigned.to_of (Pos.to_uint p)) as Hto.
  rewrite DecimalPos.Unsigned.of_to in Hto. simpl in Hto.
  pose proof (DecimalPos.Unsigned.to_uint_nonzero p) as Hnz.
  pose proof (DecimalPos.Unsigned.to_uint_nonnil p) as Hnn.
  pose proof (lit_uint_digits (Pos.to_uint p)) as Hd.
  destruct (Pos.to_uint p) as [|u|u|u|u|u|u|u|u|u|u] eqn:E;
    try contradiction;
    try (eexists _, _; split; [reflexivity|]; split; [reflexivity|];
         split; [discriminate|]; exact Hd).
  exfalso. unfold Decimal.unorm in Hto. simpl in Hto.
  pose proof (DecimalFacts.nb_digits_nzhead u) as Hlen.
  destruct (Decimal.nzhead u) eqn:Eu; try discriminate.
  - apply Hnz. exact Hto.
  - injection Hto as Hu. subst. simpl in Hlen. lia.
Qed.

(** [str(n)] of a non-negative int reads back as one number. *)
Lemma number_str_of_int (n : Z) (x : char) (rest : str) :
  0 <= n -> is_digit x = false ->
  number (str_of_int n ++ x :: rest) = Some (x :: rest).
Proof.
  intros Hn Hx. unfold str_of_int. destruct n as [|p|p]; [| |lia].
  - reflexivity.
  - simpl Z.to_int. unfold NilZero.string_of_int, NilZero.string_of_uint.
    pose proof (DecimalPos.Unsigned.to_uint_nonnil p) as Hnn.
    destruct (to_uint_head p) as (c & ds & E & Hc & Hc0 & Hds).
    destruct (Pos.to_uint p) eqn:Ep; try contradiction;
      rewrite <- Ep in *; clear Ep;
      rewrite E; simpl; apply N.eqb_neq in Hc0; rewrite Hc0, Hc;
      rewrite skip_digits_app by assumption; reflexivity.
Qed.

(** [str(n)] of a non-negative int has no opening bracket. *)
Lemma str_of_int_digits (n : Z) :
  0 <= n -> forallb is_digit (str_of_int n) = true.
Proof.
  intros Hn. unfold str_of_int. destruct n as [|p|p]; [reflexivity| |lia].
  simpl Z.to_int. unfold NilZero.string_of_int, NilZero.string_of_uint.
  pose proof (DecimalPos.Unsigned.to_uint_nonnil p) as Hnn.
  destruct (Pos.to_uint p) eqn:Ep; try contradiction;
    rewrite <- Ep; apply lit_uint_digits.
Qed.

Lemma token_at_citation (c : Chunk) (rest : str) :
  0 <= page_num c -> 0 <= chunk_id c ->
  token_at (get_citation c ++ rest) = true.
Proof.
  intros Hp Hc. unfold get_citation. rewrite <- !app_assoc. simpl.
  rewrite number_str_of_int by (assumption || reflexivity).
  rewrite number_str_of_int by (assumption || reflexivity).
  reflexivity.
Qed.

(** A stretch without an opening bracket contributes no token. *)
Lemma count_tokens_skip (a b : str) :
  forallb (fun c => negb (c =? 91)%N) a = true ->
  count_tokens (a ++ b) = count_tokens b.
Proof.
  induction a as [|c a IH]; intros H; [reflexivity|].
  cbn [forallb] in H. apply andb_prop in H as [Hc Ha].
  apply negb_true_iff in Hc.
  change ((c :: a) ++ b) with (c :: (a ++ b)). cbn [count_tokens].
  rewrite IH by exact Ha.
  assert (Hf : token_at (c :: a ++ b) = false).
  { destruct c as [|p]; [reflexivity|]. apply N.eqb_neq in Hc.
    unfold token_at.
    do 7 (destruct p as [p|p|]; try reflexivity). contradiction. }
  rewrite Hf. reflexivity.
Qed.

Lemma digits_no_bracket (ds : str) :
  forallb is_digit ds = true ->
  forallb (fun c => negb (c =? 91)%N) ds = true.
Proof.
  intros H. rewrite forallb_forall in *. intros c Hc.
  specialize (H c Hc). unfold is_digit in H.
  apply andb_prop in H as [_ H]. apply N.leb_le in H.
  apply negb_true_iff, N.eqb_neq. lia.
Qed.

(** A citation followed by a space holds one token, at its start. *)
Lemma count_tokens_citation (c : Chunk) (rest : str) :
  0 <= page_num c -> 0 <= chunk_id c ->
  count_tokens (get_citation c ++ lit " " ++ rest) = S (count_tokens rest).
Proof.
  intros Hp Hc.
  pose proof (token_at_citation c (lit " " ++ rest) Hp Hc) as Htok.
  unfold get_citation in *. rewrite <- !app_assoc in *.
  change (lit "[p" ++ ?x) with (91%N :: 112%N :: x) in *.
  cbn [count_tokens]. rewrite Htok. simpl Nat.add. f_equal.
  rewrite (count_tokens_skip (str_of_int (page_num c)))
    by (apply digits_no_bracket, str_of_int_digits; exact Hp).
  change (58%N :: 99%N :: ?x) with ([58%N; 99%N] ++ x).
  rewrite (count_tokens_skip [58%N; 99%N]) by reflexivity.
  rewrite (count_tokens_skip (str_of_int (chunk_id c)))
    by (apply digits_no_bracket, str_of_int_digits; exact Hc).
  change (93%N :: 32%N :: rest) with ([93%N; 32%N] ++ rest).
  rewrite (count_tokens_skip [93%N; 32%N]) by reflexivity.
  reflexivity.
Qed.

End CitationFacts.

(** C3, as stated, fails: a chunk whose text quotes a citation gives an
    answer with two citation tokens. *)
Lemma fallback_answer_two_citations :
  let top := mkChunk (lit "see [p7:c3] above") 1 0 in
  PrimFloat.ltb 0.9%float threshold = false
  /\ _fallback_answer [(top, 0.9%float)] = lit "[p1:c0] see [p7:c3] above"
  /\ Citation.count_tokens (_fallback_answer [(top, 0.9%float)]) <> 1%nat.
Proof.
  repeat split; try reflexivity. vm_compute. discriminate.
Qed.

(** C3, amended. On a non-empty ranked list whose top chunk has a
    non-negative page and chunk number: a top score strictly below 0.4 gives
    exactly the refusal string; otherwise the answer is the top chunk's
    citation, a space, and the chunk text, cut to its first 200 characters
    with "..." appended exactly when the text is longer than 200. The answer
    starts with a citation token and holds one token more than the excerpt
    does, so exactly one when the excerpt quotes none. *)
Theorem fallback_answer_composer (top : Chunk) (score : float)
    (rest : list (Chunk * float)) :
  0 <= page_num top -> 0 <= chunk_id top ->
  let answer := _fallback_answer ((top, score) :: rest) in
  let snippet :=
    if len (text top) >? 200 then firstn 200 (text top) ++ lit "..."
    else text top in
  (PrimFloat.ltb score threshold = true -> answer = refusal)
  /\ (PrimFloat.ltb score threshold = false ->
      answer = get_citation top ++ lit " " ++ snippet
      /\ Citation.token_at answer = true
      /\ Citation.count_tokens answer = S (Citation.count_tokens snippet)).
Proof.
  intros Hp Hc answer snippet. unfold answer, _fallback_answer. split.
  - intros ->. reflexivity.
  - intros ->.
    assert (E : (if len (text top) >? 200
                 then slice (text top) None (Some 200) ++ lit "..."
                 else text top) = snippet).
    { unfold snippet. rewrite slice_prefix by lia. reflexivity. }
    rewrite E. split; [reflexivity|]. split.
    + apply token_at_citation; assumption.
    + apply count_tokens_citation; assumption.
Qed.

(** A concrete run above the threshold. *)
Lemma fallback_answer_composer_witness :
  _fallback_answer [(mkChunk (lit "Q4 2023 revenue") 2 5, 0.5%float)]
  = lit "[p2:c5] Q4 2023 revenue"
  /\ Citation.count_tokens
       (_fallback_answer [(mkChunk (lit "Q4 2023 revenue") 2 5, 0.5%float)])
     = 1%nat.
Proof.
  pose proof (proj2 (fallback_answer_composer
                       (mkChunk (lit "Q4 2023 revenue") 2 5) 0.5%float []
                       ltac:(simpl; lia) ltac:(simpl; lia)) eq_refl)
    as (H1 & _ & H3).
  split; [exact H1 | exact H3].
Defined.

(* ===================================================================== *)
(** * The vector store and the orchestrator *)
(* ===================================================================== *)

Section SessionFacts.

Variable embed : str -> list float.
Variable normalize_L2 : list (list float) -> list (list float).
Variable index_search :
  FaissIndex -> list (list float) -> Z -> call (list (Z * float)).
Variable gemini : str -> Reply.
Variable openai : list Msg -> Reply.

Local Abbreviation retrieve := (search embed normalize_L2 index_search).
Local Abbreviation ask :=
  (answer_question embed normalize_L2 index_search gemini openai).
Local Abbreviation init := (RAGSystem_init embed normalize_L2).
Local Abbreviation run_main := (main embed normalize_L2).

(** A call that retrieves at least one result appends the user turn and the
    assistant turn, in that order. *)
Lemma answer_question_appends (self : RAGSystem) (query : str)
    (results : list (Chunk * float)) :
  retrieve (vector_store self) (enhanced_query self query) (top_k self)
  = Ok results ->
  results <> [] ->
  exists answer calls,
    ask self query
    = (Ok answer,
       set_history self
         (chat_history self ++ [mkMsg user query; mkMsg assistant answer]),
       calls).
Proof.
  intros Hs Hne. unfold answer_question. rewrite Hs.
  destruct results as [|r rs]; [contradiction|]. simpl negb. cbv iota.
  destruct (generate_answer gemini openai (llm self) query (r :: rs)
              (chat_history self)) as [answer calls].
  exists answer, calls. reflexivity.
Qed.

(** The other refusal path: in fallback mode a top score below the
    threshold gives the refusal string, and the two turns are appended. *)
Lemma low_score_refusal_appends (self : RAGSystem) (query : str)
    (top : Chunk) (score : float) (rest : list (Chunk * float)) :
  retrieve (vector_store self) (enhanced_query self query) (top_k self)
  = Ok ((top, score) :: rest) ->
  use_gemini (llm self) = false -> use_openai (llm self) = false ->
  PrimFloat.ltb score threshold = true ->
  ask self query
  = (Ok refusal,
     set_history self
       (chat_history self ++ [mkMsg user query; mkMsg assistant refusal]),
     []).
Proof.
  intros Hs Hg Ho Hlow. unfold answer_question. rewrite Hs.
  simpl negb. cbv iota. unfold generate_answer. cbv zeta.
  rewrite Hg, Ho. unfold _fallback_answer. rewrite Hlow. reflexivity.
Qed.

(** C4. When [search] returns no result, [answer_question] returns exactly
    the refusal string and sends no request to a generation service. *)
Theorem empty_retrieval_refuses (self : RAGSystem) (query : str) :
  retrieve (vector_store self) (enhanced_query self query) (top_k self) = Ok [] ->
  fst (fst (ask self query)) = Ok refusal
  /\ snd (ask self query) = []
  /\ refusal = lit "Not found in the document.".
Proof.
  intros Hs. unfold answer_question. rewrite Hs. simpl. repeat split.
Qed.

(** C9. When a generation service is active and the request sent to it
    fails (an exception of any kind, or a response without text),
    [answer_question] still returns a string: the deterministic composer's
    answer on the same ranked results. Exactly one request was made, and the
    two turns are appended as usual. *)
Theorem generation_failure_falls_back (self : RAGSystem) (query : str)
    (results : list (Chunk * float)) :
  retrieve (vector_store self) (enhanced_query self query) (top_k self)
  = Ok results ->
  results <> [] ->
  use_gemini (llm self) || use_openai (llm self) = true ->
  Forall (fun c => failed (reply_to gemini openai c) = true)
         (snd (ask self query)) ->
  fst (ask self query)
  = (Ok (_fallback_answer results),
     set_history self
       (chat_history self
        ++ [mkMsg user query; mkMsg assistant (_fallback_answer results)]))
  /\ length (snd (ask self query)) = 1%nat.
Proof.
  intros Hs Hne Hllm. unfold answer_question. rewrite Hs.
  destruct results as [|r rs]; [contradiction|]. simpl negb. cbv iota.
  unfold generate_answer. cbv zeta.
  destruct (use_gemini (llm self)).
  - match goal with |- context [gemini ?p] => destruct (gemini p) eqn:E end;
      cbn [fst snd length]; intros Hf.
    + apply Forall_inv in Hf. cbn [reply_to] in Hf. rewrite E in Hf.
      discriminate.
    + split; reflexivity.
    + split; reflexivity.
  - simpl in Hllm. rewrite Hllm.
    match goal with |- context [openai ?m] => destruct (openai m) eqn:E end;
      cbn [fst snd length]; intros Hf.
    + apply Forall_inv in Hf. cbn [reply_to] in Hf. rewrite E in Hf.
      discriminate.
    + split; reflexivity.
    + split; reflexivity.
Qed.

(** On an unbuilt store [search] returns no result. *)
Lemma search_unbuilt (cs : list Chunk) (dim : option Z) (query : str) (k : Z) :
  retrieve (mkVectorStore None cs dim) query k = Ok [].
Proof. reflexivity. Qed.

(** Hits with label -1 pass the test [idx < len(self.chunks)] and are read
    as [self.chunks[-1]], the last chunk. *)
Lemma search_loop_padding (self : VectorStore) (last : Chunk)
    (pad : list float) :
  Py.index (chunks self) (-1) = Some last ->
  forall results,
    search_loop self (map (fun s => (-1, s)) pad) results
    = Ok (results ++ map (fun s => (last, s)) pad).
Proof.
  intros Hlast. induction pad as [|s pad IH]; intros results; simpl.
  - rewrite app_nil_r. reflexivity.
  - assert (E : (-1 <? len (chunks self)) = true).
    { apply Z.ltb_lt. pose proof (len_nonneg (chunks self)). lia. }
    rewrite E, Hlast. simpl. rewrite IH, <- app_assoc. reflexivity.
Qed.

(** Hits with a label inside the list are kept, one result each. *)
Lemma search_loop_valid (self : VectorStore) (hits : list (Z * float)) :
  Forall (fun h => 0 <= fst h < len (chunks self)) hits ->
  forall results,
    exists found,
      search_loop self hits results = Ok (results ++ found)
      /\ length found = length hits.
Proof.
  induction hits as [|[idx score] hits IH]; intros Hv results.
  - exists []. rewrite app_nil_r. split; reflexivity.
  - inversion Hv as [|? ? Hidx Hrest]; subst. simpl in Hidx. simpl.
    assert (E : (idx <? len (chunks self)) = true) by (apply Z.ltb_lt; lia).
    rewrite E. unfold Py.index.
    assert (E0 : (0 <=? idx) && (idx <? len (chunks self)) = true).
    { rewrite E, andb_true_r. apply Z.leb_le. lia. }
    rewrite E0.
    destruct (nth_error (chunks self) (Z.to_nat idx)) as [c|] eqn:En.
    + simpl. destruct (IH Hrest (results ++ [(c, score)])) as (found & -> & Hl).
      exists ((c, score) :: found). rewrite <- app_assoc.
      split; [reflexivity|]. simpl. rewrite Hl. reflexivity.
    + apply nth_error_None in En. unfold len in Hidx. lia.
Qed.

Lemma search_loop_app (self : VectorStore) (h1 h2 : list (Z * float)) :
  forall results,
    search_loop self (h1 ++ h2) results
    = bind (search_loop self h1 results) (search_loop self h2).
Proof.
  induction h1 as [|[idx score] h1 IH]; intros results; simpl;
    [reflexivity|].
  destruct (idx <? len (chunks self)); [|apply IH].
  destruct (Py.index (chunks self) idx); simpl; [apply IH|reflexivity].
Qed.

(** When FAISS reports the [n] stored vectors and pads up to [k] with label
    -1, [search] returns [k] results: one per stored hit, and the last chunk
    once more for every padding label. *)
Lemma search_padded (ix : FaissIndex) (cs : list Chunk) (dim : option Z)
    (query : str) (k : Z) (hits : list (Z * float)) (pad : list float)
    (last : Chunk) :
  index_search ix (normalize_L2 (encode embed [query])) k
  = Returns (hits ++ map (fun s => (-1, s)) pad) ->
  Forall (fun h => 0 <= fst h < len cs) hits ->
  Py.index cs (-1) = Some last ->
  exists found,
    retrieve (mkVectorStore (Some ix) cs dim) query k
    = Ok (found ++ map (fun s => (last, s)) pad)
    /\ length found = length hits.
Proof.
  intros Hix Hv Hlast. unfold search. cbn [index]. rewrite Hix.
  cbn [of_call bind]. rewrite search_loop_app.
  destruct (search_loop_valid (mkVectorStore (Some ix) cs dim) hits Hv [])
    as (found & -> & Hl).
  simpl bind. exists found. split; [|exact Hl].
  apply (search_loop_padding (mkVectorStore (Some ix) cs dim) last pad Hlast).
Qed.

(** C5. When the document has pages but chunking yields no chunk, the
    session set-up does not return a session: [build_index] is run on the
    empty chunk list, the embedding array of the empty batch has no second
    dimension, and reading [embeddings.shape[1]] raises. The exception
    leaves [__init__] (no session value exists for a later
    [answer_question]), and [main] reports it and exits with status 1. *)
Theorem zero_chunks_fail_init (fuel : nat) (env : Env)
    (reader_pages : list (option str)) (size overlap k : Z)
    (gemini_key openai_key : option str) :
  reader_pages <> [] ->
  process_pdf fuel (PDFProcessor_init size overlap) reader_pages = Some [] ->
  (exists e,
      init fuel env reader_pages size overlap k gemini_key openai_key
      = Raise e)
  /\ (forall session_llm,
        LLMInterface_init env openai_key gemini_key = Ok session_llm ->
        init fuel env reader_pages size overlap k gemini_key
                       openai_key
        = Raise IndexError)
  /\ (forall path_exists path,
        path <> [] -> path_exists path = true ->
        run_main fuel env path_exists (fun _ => reader_pages)
             (Parsed (mkArgs (Some path) size overlap k))
        = SysExit 1).
Proof.
  intros Hne Hz.
  assert (Hinit : forall gk ok,
    exists e, init fuel env reader_pages size overlap k gk ok
              = Raise e
           /\ (forall l, LLMInterface_init env ok gk = Ok l -> e = IndexError)).
  { intros gk ok. unfold RAGSystem_init.
    destruct (LLMInterface_init env ok gk) as [l|e|] eqn:El.
    - simpl bind. rewrite Hz. simpl. exists IndexError.
      split; [reflexivity|]. intros _ _. reflexivity.
    - exists e. split; [reflexivity|]. intros l Hl. discriminate.
    - exfalso. revert El. unfold LLMInterface_init.
      repeat match goal with
             | |- context [match ?x with _ => _ end] => destruct x
             end; discriminate. }
  split; [|split].
  - destruct (Hinit gemini_key openai_key) as (e & He & _).
    exists e. exact He.
  - intros l Hl. destruct (Hinit gemini_key openai_key) as (e & He & Hi).
    rewrite He, (Hi l Hl). reflexivity.
  - intros path_exists path Hp Hex. unfold main.
    simpl pdf_path. destruct path as [|c p]; [contradiction|].
    rewrite Hex. simpl negb. cbv iota. simpl arg_chunk_size.
    simpl arg_chunk_overlap. simpl arg_top_k.
    destruct (Hinit None None) as (e & He & _).
    rewrite He. reflexivity.
Qed.

End SessionFacts.

(** ** Concrete runs *)

(** A concrete run on a store without index. *)
Lemma empty_retrieval_refuses_witness :
  fst (fst (answer_question Sample.embed Sample.normalize_L2
              Sample.index_search Sample.gemini Sample.openai
              Sample.unbuilt (lit "What is quantum computing?")))
  = Ok (lit "Not found in the document.").
Proof.
  exact (proj1 (empty_retrieval_refuses Sample.embed Sample.normalize_L2
                  Sample.index_search Sample.gemini Sample.openai
                  Sample.unbuilt (lit "What is quantum computing?")
                  eq_refl)).
Defined.

(** A concrete run: Gemini is out of quota, the answer is the excerpt of the
    top chunk. *)
Lemma generation_failure_falls_back_witness :
  fst (fst (answer_question Sample.embed Sample.normalize_L2
              Sample.index_search Sample.gemini Sample.openai
              Sample.one_chunk (lit "alpha?")))
  = Ok (lit "[p1:c0] alpha beta").
Proof.
  exact (f_equal fst
           (proj1 (generation_failure_falls_back Sample.embed
                     Sample.normalize_L2 Sample.index_search Sample.gemini
                     Sample.openai Sample.one_chunk (lit "alpha?")
                     [(Sample.alpha, 0.9%float)] eq_refl
                     ltac:(discriminate) eq_refl
                     ltac:(repeat constructor)))).
Defined.

(** A concrete run: a document of two pages with nothing but whitespace and
    watermark. *)
Lemma zero_chunks_fail_init_witness :
  RAGSystem_init Sample.embed Sample.normalize_L2 10
    (mkEnv None None NoPackage NoPackage)
    [Some (lit "   "); Some (lit "STRICTLY CONFIDENTIAL")] 500 100 5
    None None
  = Raise IndexError.
Proof.
  exact (proj1 (proj2 (zero_chunks_fail_init Sample.embed Sample.normalize_L2
                         10 (mkEnv None None NoPackage NoPackage)
                         [Some (lit "   "); Some (lit "STRICTLY CONFIDENTIAL")]
                         500 100 5 None None ltac:(discriminate) eq_refl))
           (mkLLMInterface false false) eq_refl).
Defined.

(** On a store without index (the state [VectorStore.__init__] leaves, which
    [RAGSystem.__init__] never returns) two calls both return the refusal
    through the early return of [answer_question], before the two appends:
    the history stays empty. *)
Lemma empty_retrieval_skips_history :
  ask_all Sample.embed Sample.normalize_L2 Sample.index_search Sample.gemini
          Sample.openai Sample.unbuilt
          [lit "What is quantum computing?"; lit "Who is the CEO?"]
  = Some (Sample.unbuilt, [refusal; refusal])
  /\ chat_history Sample.unbuilt = []
  /\ length (chat_history Sample.unbuilt) <> (2 * 2)%nat.
Proof. repeat split. discriminate. Qed.

(** C2 at its failing input. The index is built from one chunk and searched
    with [top_k = 2]: FAISS pads the labels with -1, the test
    [idx < len(self.chunks)] lets -1 through, and [self.chunks[-1]] is the
    last chunk, so the chunk is returned twice, the second time with the
    padding score. On a store without index the result is empty. *)
Theorem search_returns_padding :
  exists store,
    build_index Sample.embed Sample.normalize_L2 VectorStore_init
                [Sample.alpha] = Ok store
    /\ Sample.index_search
         (mkFaissIndex 1 [[1.0%float]]) [[1.0%float]] 2
       = Returns [(0, 0.9%float); (-1, Sample.no_score)]
    /\ search Sample.embed Sample.normalize_L2 Sample.index_search store
              (lit "alpha?") 2
       = Ok [(Sample.alpha, 0.9%float); (Sample.alpha, Sample.no_score)]
    /\ search Sample.embed Sample.normalize_L2 Sample.index_search
              VectorStore_init (lit "alpha?") 2
       = Ok [].
Proof. eexists. repeat split. Qed.

(* ===================================================================== *)
(** * Further properties: citations, cleaning and chunk texts *)
(* ===================================================================== *)

Section TextFacts.

Import Re.

Lemma lit_inj (a b : string) : lit a = lit b -> a = b.
Proof.
  unfold lit. intros H.
  assert (Hl : list_ascii_of_string a = list_ascii_of_string b).
  { revert H. generalize (list_ascii_of_string a) (list_ascii_of_string b).
    induction l as [|x l IH]; intros [|y l'] H; simpl in H;
      try discriminate; [reflexivity|].
    injection H as Hx Hr. f_equal; [|apply IH; exact Hr].
    unfold char_of_ascii in Hx.
    rewrite <- (ascii_N_embedding x), <- (ascii_N_embedding y), Hx.
    reflexivity. }
  rewrite <- (string_of_list_ascii_of_string a),
          <- (string_of_list_ascii_of_string b), Hl.
  reflexivity.
Qed.

(** [str] of an int determines the int. *)
Lemma str_of_int_inj (n m : Z) : str_of_int n = str_of_int m -> n = m.
Proof.
  unfold str_of_int. intros H. apply lit_inj in H.
  assert (Hnil : forall z, Z.to_int z <> Decimal.Pos Decimal.Nil
                           /\ Z.to_int z <> Decimal.Neg Decimal.Nil).
  { intros [|p|p]; simpl; split; try discriminate;
      intros E; injection E as E;
      exact (DecimalPos.Unsigned.to_uint_nonnil p E). }
  apply DecimalZ.to_int_inj.
  pose proof (NilZero.isi (Z.to_int n) (proj1 (Hnil n)) (proj2 (Hnil n)))
    as Hn.
  pose proof (NilZero.isi (Z.to_int m) (proj1 (Hnil m)) (proj2 (Hnil m)))
    as Hm.
  rewrite H in Hn. rewrite Hn in Hm. injection Hm as Hm. exact Hm.
Qed.

(** [str] of an int is a sign or digits: it has no colon. *)
Lemma str_of_int_no_colon (n : Z) : ~ In 58%N (str_of_int n).
Proof.
  assert (Hd : forall u, ~ In 58%N (lit (NilEmpty.string_of_uint u))).
  { intros u Hin. pose proof (lit_uint_digits u) as H.
    rewrite forallb_forall in H. specialize (H _ Hin). discriminate. }
  assert (Hz : forall u, ~ In 58%N (lit (NilZero.string_of_uint u))).
  { intros u. unfold NilZero.string_of_uint.
    destruct u; try apply Hd. simpl. intros [E|[]]. discriminate. }
  unfold str_of_int. destruct n as [|p|p]; simpl Z.to_int;
    unfold NilZero.string_of_int.
  - apply Hz.
  - apply Hz.
  - intros [E|Hin]; [discriminate|]. exact (Hz _ Hin).
Qed.

(** Two texts cut at the first occurrence of a separator agree on both
    sides. *)
Lemma split_at_first (x : char) (a a' r r' : str) :
  ~ In x a -> ~ In x a' -> a ++ x :: r = a' ++ x :: r' -> a = a' /\ r = r'.
Proof.
  revert a'. induction a as [|c a IH]; intros [|c' a'] Ha Ha' H; simpl in H.
  - injection H as ->. split; reflexivity.
  - injection H as -> _. exfalso. apply Ha'. left. reflexivity.
  - injection H as -> _. exfalso. apply Ha. left. reflexivity.
  - injection H as -> H.
    destruct (IH a') as [-> ->]; try exact H.
    + intros Hin. apply Ha. right. exact Hin.
    + intros Hin. apply Ha'. right. exact Hin.
    + split; reflexivity.
Qed.

Lemma citation_numbers (c1 c2 : Chunk) :
  get_citation c1 = get_citation c2 ->
  page_num c1 = page_num c2 /\ chunk_id c1 = chunk_id c2.
Proof.
  unfold get_citation. intros H.
  apply app_inv_head in H.
  change (lit ":c" ++ ?x) with (58%N :: 99%N :: x) in H.
  apply split_at_first in H; try apply str_of_int_no_colon.
  destruct H as [Hp Hr]. injection Hr as Hr.
  apply app_inv_tail in Hr.
  split; apply str_of_int_inj; assumption.
Qed.

(** X1. The citation of a chunk determines its page and chunk number: two
    chunks with the same citation token have the same [page_num] and the
    same [chunk_id], whatever their texts. *)
Theorem get_citation_injective (c1 c2 : Chunk) :
  get_citation c1 = get_citation c2 ->
  page_num c1 = page_num c2 /\ chunk_id c1 = chunk_id c2.
Proof. apply citation_numbers. Qed.

(** Two chunks of one page and number cite alike: a concrete pair. *)
Lemma get_citation_injective_witness :
  page_num (mkChunk (lit "a") 3 14) = page_num (mkChunk (lit "b") 3 14)
  /\ chunk_id (mkChunk (lit "a") 3 14) = chunk_id (mkChunk (lit "b") 3 14).
Proof.
  exact (get_citation_injective (mkChunk (lit "a") 3 14)
           (mkChunk (lit "b") 3 14) eq_refl).
Defined.

(** Joining tokens with single spaces and splitting again gives the tokens
    back. *)
Lemma split_join_tokens (ws : list str) :
  Forall Sliding.token ws -> split (join (lit " ") ws) = ws.
Proof.
  induction ws as [|w ws IH]; intros H; [reflexivity|].
  inversion H as [|? ? Hw Hws]; subst.
  destruct ws as [|w2 ws].
  - simpl. apply split_token_end. exact Hw.
  - change (join (lit " ") (w :: w2 :: ws))
      with (w ++ 32%N :: join (lit " ") (w2 :: ws)).
    rewrite split_token_space by (exact Hw || reflexivity).
    rewrite IH by exact Hws. reflexivity.
Qed.

Lemma lstrip_fixed_of_length (s : str) :
  length (lstrip s) = length s -> lstrip s = s.
Proof.
  destruct s as [|c s]; [reflexivity|]. simpl.
  destruct (isspace c); [|reflexivity].
  pose proof (lstrip_length s). simpl. lia.
Qed.

Lemma strip_fixed_parts (s : str) :
  strip s = s -> lstrip s = s /\ rstrip s = s.
Proof.
  intros H. unfold strip in H.
  assert (Hl : lstrip s = s).
  { apply lstrip_fixed_of_length.
    pose proof (lstrip_length s) as H1.
    assert (H2 : (length (rstrip (lstrip s)) <= length (lstrip s))%nat).
    { unfold rstrip. rewrite length_rev.
      pose proof (lstrip_length (rev (lstrip s))) as H3.
      rewrite length_rev in H3. exact H3. }
    rewrite H in H2. lia. }
  rewrite Hl in H. split; assumption.
Qed.

Lemma rstrip_fixed_tail (c : char) (s : str) :
  rstrip (c :: s) = c :: s -> rstrip s = s.
Proof.
  rewrite rstrip_cons. destruct (rstrip s) as [|x r] eqn:E.
  - destruct (isspace c); intros H; [discriminate|].
    injection H as <-. reflexivity.
  - intros H. injection H as <-. reflexivity.
Qed.

Lemma rstrip_fixed_last_space (c : char) :
  isspace c = true -> rstrip [c] <> [c].
Proof.
  intros Hc. rewrite rstrip_cons. simpl. rewrite Hc. discriminate.
Qed.

(** On a text with single spaces only and no space at its end, the tokens
    joined by single spaces are the text itself. [cur] is the token being
    read, as in [split_from]. *)
Lemma join_split_from (s : str) :
  forall cur,
    single_spaced (negb (truthy cur)) s = true ->
    rstrip s = s ->
    join (lit " ") (split_from cur s) = rev cur ++ s.
Proof.
  induction s as [|c s IH]; intros cur Hss Hr.
  - simpl. destruct cur; simpl; rewrite ?app_nil_r; reflexivity.
  - cbn [split_from]. simpl in Hss.
    destruct (isspace c) eqn:Ec.
    + apply andb_prop in Hss as [H1 Hs]. apply andb_prop in H1 as [Hc Hcur].
      apply N.eqb_eq in Hc. subst c.
      destruct cur as [|x cur]; [discriminate|].
      destruct s as [|c2 s].
      { exfalso. exact (rstrip_fixed_last_space 32%N eq_refl Hr). }
      pose proof (rstrip_fixed_tail _ _ Hr) as Hr'.
      specialize (IH [] Hs Hr'). simpl rev in IH. simpl app in IH.
      assert (Hne : split_from [] (c2 :: s) <> []).
      { simpl in Hs. destruct (isspace c2) eqn:E2.
        - rewrite andb_false_r in Hs. discriminate.
        - cbn [split_from]. rewrite E2. apply split_from_nonempty.
          discriminate. }
      destruct (split_from [] (c2 :: s)) as [|w ws] eqn:Es;
        [contradiction|].
      change (join (lit " ") (rev (x :: cur) :: w :: ws))
        with (rev (x :: cur) ++ 32%N :: join (lit " ") (w :: ws)).
      rewrite IH. reflexivity.
    + pose proof (rstrip_fixed_tail _ _ Hr) as Hr'.
      rewrite (IH (c :: cur)) by (simpl; assumption).
      simpl. rewrite <- app_assoc. reflexivity.
Qed.

(** A text left alone by whitespace collapsing and by [strip] is its tokens
    joined by single spaces. *)
Lemma join_split_normal (t : str) :
  single_spaced false t = true -> strip t = t ->
  join (lit " ") (split t) = t.
Proof.
  intros Hss Hst. destruct (strip_fixed_parts t Hst) as [Hl Hr].
  unfold split. rewrite join_split_from; [reflexivity| |exact Hr].
  simpl. destruct t as [|c t]; [reflexivity|].
  simpl in *. destruct (isspace c) eqn:E; [|exact Hss].
  exfalso. pose proof (lstrip_length t).
  apply (f_equal (@length _)) in Hl. simpl in Hl. lia.
Qed.

End TextFacts.

Section CleaningMore.

Import Re.

(** X2. Cleaned text is exactly its whitespace-delimited tokens joined by
    single spaces, and it is never longer than the raw text. *)
Theorem clean_text_is_joined_tokens (raw : str) :
  join (lit " ") (split (clean_text raw)) = clean_text raw
  /\ (length (clean_text raw) <= length raw)%nat.
Proof.
  destruct (clean_text_normal raw) as [Hss Hst]. split.
  - apply join_split_normal; assumption.
  - apply clean_text_length.
Qed.

Lemma sub_from_keeps (P : char -> bool) (p : pattern) (s : str) :
  forall k, forallb P s = true -> forallb P (sub_from p [] k s) = true.
Proof.
  induction s as [|c s IH]; intros k H; [reflexivity|].
  cbn [forallb] in H. apply andb_prop in H as [Hc Hs].
  cbn [sub_from]. destruct k as [|k]; [|apply IH; exact Hs].
  destruct (match_at p (c :: s)) as [rest|].
  - destruct (length (c :: s) - length rest)%nat.
    + cbn [forallb]. rewrite Hc. apply IH. exact Hs.
    + apply IH. exact Hs.
  - cbn [forallb]. rewrite Hc. apply IH. exact Hs.
Qed.

Lemma lstrip_nil_blank (s : str) : lstrip s = [] -> forallb isspace s = true.
Proof.
  induction s as [|c s IH]; [reflexivity|]. simpl.
  destruct (isspace c); [exact IH|discriminate].
Qed.

Lemma lstrip_blank (s : str) : forallb isspace s = true -> lstrip s = [].
Proof.
  induction s as [|c s IH]; [reflexivity|]. simpl.
  destruct (isspace c); [exact IH|discriminate].
Qed.

Lemma strip_nil_blank (s : str) : strip s = [] <-> forallb isspace s = true.
Proof.
  split.
  - unfold strip, rstrip. intros H.
    destruct (lstrip_head s) as [E | (c & r & E & Hc)].
    + apply lstrip_nil_blank. exact E.
    + exfalso. rewrite E in H.
      apply (f_equal (@rev _)) in H. rewrite rev_involutive in H.
      simpl rev at 2 in H. apply lstrip_nil_blank in H.
      rewrite forallb_forall in H.
      specialize (H c ltac:(apply in_rev; rewrite rev_involutive; left;
                            reflexivity)).
      congruence.
  - intros H. unfold strip. rewrite (lstrip_blank s H). reflexivity.
Qed.

Lemma collapse_blank (s : str) :
  forallb isspace s = true -> strip (collapse false s) = [].
Proof.
  intros H. apply strip_nil_blank.
  assert (Hg : forall b, forallb isspace (collapse b s) = true).
  { induction s as [|c s IH]; intros b; [reflexivity|].
    simpl in H. apply andb_prop in H as [Hc Hs]. simpl. rewrite Hc.
    destruct b; [apply IH; exact Hs|]. simpl. apply IH. exact Hs. }
  apply Hg.
Qed.

Lemma clean_text_of_blank (raw : str) :
  forallb isspace raw = true -> clean_text raw = [].
Proof.
  intros H. unfold clean_text.
  rewrite sub_spaces_collapse. apply collapse_blank.
  unfold sub. repeat apply sub_from_keeps. exact H.
Qed.

(** X3. A page text that is blank (empty or whitespace only) cleans to the
    empty text: the test [if cleaned_text] of [extract_text_by_page] already
    covers the test [if text.strip()] before it. *)
Theorem clean_text_blank (raw : str) :
  strip raw = [] -> clean_text raw = [].
Proof.
  intros H. apply clean_text_of_blank, strip_nil_blank. exact H.
Qed.

(** A blank page of tabs and newlines. *)
Lemma clean_text_blank_witness : clean_text [9%N; 10%N; 32%N; 160%N] = [].
Proof. exact (clean_text_blank [9%N; 10%N; 32%N; 160%N] eq_refl). Defined.

Lemma extract_pages_in (reader_pages : list (option str)) :
  forall first i t,
    In (i, t) (extract_pages first reader_pages) <->
    exists raw,
      first <= i
      /\ nth_error reader_pages (Z.to_nat (i - first)) = Some (Some raw)
      /\ t = clean_text raw /\ t <> [].
Proof.
  induction reader_pages as [|o rest IH]; intros first i t.
  - simpl. split; [contradiction|].
    intros (raw & _ & H & _). destruct (Z.to_nat (i - first)); discriminate.
  - assert (Hshift : In (i, t) (extract_pages (first + 1) rest) <->
                     exists raw, first + 1 <= i
                       /\ nth_error (o :: rest) (Z.to_nat (i - first))
                          = Some (Some raw)
                       /\ t = clean_text raw /\ t <> []).
    { rewrite IH. split; intros (raw & Hi & Hn & Ht); exists raw;
        (split; [exact Hi|split; [|exact Ht]]).
      - replace (Z.to_nat (i - first)) with (S (Z.to_nat (i - (first + 1))))
          by lia. exact Hn.
      - replace (Z.to_nat (i - first)) with (S (Z.to_nat (i - (first + 1))))
          in Hn by lia. exact Hn. }
    assert (Hskip : (forall raw, o = Some raw -> clean_text raw = []) ->
              (In (i, t) (extract_pages (first + 1) rest) <->
               exists raw, first <= i
                 /\ nth_error (o :: rest) (Z.to_nat (i - first))
                    = Some (Some raw)
                 /\ t = clean_text raw /\ t <> [])).
    { intros Ho. rewrite Hshift.
      split; intros (raw & Hi & Hn & Ht & Hne); exists raw.
      - repeat split; try assumption. lia.
      - repeat split; try assumption.
        destruct (Z.eq_dec i first) as [->|]; [|lia]. exfalso.
        rewrite Z.sub_diag in Hn. simpl in Hn. injection Hn as Hn.
        apply Hne. rewrite Ht. apply Ho. exact Hn. }
    cbn [extract_pages]. destruct o as [raw0|].
    + destruct (truthy (strip raw0)) eqn:E1.
      * destruct (truthy (clean_text raw0)) eqn:E2.
        -- cbn [In]. rewrite Hshift. split.
           ++ intros [E | (raw & Hi & Hn & Ht)].
              ** injection E as <- <-. exists raw0.
                 rewrite Z.sub_diag. repeat split; try reflexivity; try lia.
                 destruct (clean_text raw0); discriminate.
              ** exists raw. repeat split; try tauto. lia.
           ++ intros (raw & Hi & Hn & Ht & Hne).
              destruct (Z.eq_dec i first) as [->|].
              ** left. rewrite Z.sub_diag in Hn. simpl in Hn.
                 injection Hn as <-. rewrite Ht. reflexivity.
              ** right. exists raw. repeat split; try assumption. lia.
        -- apply Hskip. intros raw E. injection E as <-.
           destruct (clean_text raw0); [reflexivity|discriminate].
      * apply Hskip. intros raw E. injection E as <-.
        apply clean_text_of_blank, strip_nil_blank. destruct (strip raw0);
          [reflexivity|discriminate].
    + apply Hskip. intros raw E. discriminate.
Qed.

Lemma extract_pages_sorted (reader_pages : list (option str)) :
  forall first,
    Sorted.StronglySorted Z.lt (map fst (extract_pages first reader_pages)).
Proof.
  induction reader_pages as [|o rest IH]; intros first; simpl.
  - constructor.
  - assert (Hcons : forall t,
      Sorted.StronglySorted Z.lt
        (map fst ((first, t) :: extract_pages (first + 1) rest))).
    { intros t. simpl. constructor; [apply IH|].
      rewrite Forall_forall. intros j Hj.
      apply in_map_iff in Hj as ([j' t'] & <- & Hin). simpl.
      apply extract_pages_in in Hin as (raw & Hle & _). lia. }
    destruct o as [raw|]; [|apply IH].
    destruct (truthy (strip raw)); [|apply IH].
    destruct (truthy (clean_text raw)); [apply Hcons|apply IH].
Qed.

(** X4. [extract_text_by_page] keeps exactly the pages whose text could be
    extracted and does not clean to the empty text, each with its cleaned
    text under its 1-based position in the document: a skipped page does not
    shift the numbers of the pages after it, and the page numbers come out
    strictly increasing. *)
Theorem extract_text_by_page_numbers (reader_pages : list (option str)) :
  (forall i t,
      In (i, t) (extract_text_by_page reader_pages) <->
      exists raw,
        1 <= i
        /\ nth_error reader_pages (Z.to_nat (i - 1)) = Some (Some raw)
        /\ t = clean_text raw /\ t <> [])
  /\ Sorted.StronglySorted Z.lt
       (map fst (extract_text_by_page reader_pages)).
Proof.
  split.
  - intros i t. apply extract_pages_in.
  - apply extract_pages_sorted.
Qed.

End CleaningMore.

(* ===================================================================== *)
(** * Further properties: the chunker *)
(* ===================================================================== *)

Section ChunkerMore.

Variable self : PDFProcessor.

Local Abbreviation size := (chunk_size self).
Local Abbreviation step := (chunk_size self - chunk_overlap self).

(** With a valid configuration, whatever [chunk_text] returns is the list of
    sliding windows. *)
Lemma chunk_text_is_sliding (fuel : nat) (t : str) (page cid : Z)
    (cs : list Chunk) :
  0 <= chunk_overlap self -> chunk_overlap self < chunk_size self ->
  chunk_text fuel self t page cid = Some cs ->
  cs = Sliding.sliding_chunks (split t) size step page cid.
Proof.
  intros Hov Hlt H.
  assert (Hstep : 0 < step) by lia.
  assert (Hbig : chunk_text (S (length (split t))) self t page cid
                 = Some (Sliding.sliding_chunks (split t) size step page cid)).
  { unfold chunk_text. destruct (split t) as [|w ws] eqn:Ew.
    - rewrite sliding_chunks_nil by exact Hstep. reflexivity.
    - simpl negb. cbv iota. rewrite <- Ew.
      pose proof (chunk_loop_sliding self (split t) page cid Hov Hlt
                    (Sliding.num_windows (len (split t)) step) 0%nat
                    (S (length (split t))) []) as Hl.
      simpl in Hl. rewrite Z.add_0_r in Hl. apply Hl; [reflexivity|].
      pose proof (num_windows_le (len (split t)) step Hstep
                    (len_nonneg (split t))).
      unfold len in *. lia. }
  apply (chunk_text_more_fuel self _ (S (length (split t)))) in H.
  apply (chunk_text_more_fuel self _ fuel) in Hbig.
  rewrite Nat.add_comm in Hbig. rewrite H in Hbig.
  injection Hbig as ->. reflexivity.
Qed.

Lemma sliding_chunks_nth (words : list str) (page cid : Z) (i : nat)
    (c : Chunk) :
  nth_error (Sliding.sliding_chunks words size step page cid) i = Some c ->
  (i < Sliding.num_windows (len words) step)%nat
  /\ c = Sliding.chunk_at words size step page cid i.
Proof.
  unfold Sliding.sliding_chunks. intros H.
  assert (Hi : (i < Sliding.num_windows (len words) step)%nat).
  { assert (Hn : nth_error
                   (map (Sliding.chunk_at words size step page cid)
                        (seq 0 (Sliding.num_windows (len words) step))) i
                 <> None) by congruence.
    apply nth_error_Some in Hn. rewrite length_map, length_seq in Hn.
    exact Hn. }
  split; [exact Hi|].
  rewrite nth_error_map in H.
  rewrite (nth_error_nth' _ 0%nat) in H by (rewrite length_seq; exact Hi).
  rewrite seq_nth in H by exact Hi.
  simpl in H. injection H as <-. reflexivity.
Qed.

Lemma window_tokens (words : list str) (i : nat) :
  Forall Sliding.token words ->
  Forall Sliding.token (Sliding.window_at words size step i).
Proof.
  intros H. unfold Sliding.window_at.
  rewrite <- (firstn_skipn (i * Z.to_nat step) words) in H.
  apply Forall_app in H as [_ H].
  rewrite <- (firstn_skipn (Z.to_nat size)
                (skipn (i * Z.to_nat step) words)) in H.
  apply Forall_app in H as [H _]. exact H.
Qed.

(** X5. With chunk_size > chunk_overlap >= 0, every chunk [chunk_text]
    returns can be split back into tokens: the tokens of chunk [i] are the
    tokens [i*step .. i*step + chunk_size) of the page, at least one and at
    most [chunk_size] of them, and the chunk carries the page number given
    and the number [start_chunk_id + i]. *)
Theorem chunk_text_retokenizes (fuel : nat) (t : str) (page cid : Z)
    (cs : list Chunk) (i : nat) (c : Chunk) :
  0 <= chunk_overlap self -> chunk_overlap self < chunk_size self ->
  chunk_text fuel self t page cid = Some cs ->
  nth_error cs i = Some c ->
  split (text c)
  = firstn (Z.to_nat size) (skipn (i * Z.to_nat step) (split t))
  /\ split (text c) <> []
  /\ (length (split (text c)) <= Z.to_nat size)%nat
  /\ page_num c = page
  /\ chunk_id c = cid + Z.of_nat i.
Proof.
  intros Hov Hlt Hcs Hc.
  apply (chunk_text_is_sliding _ _ _ _ _ Hov Hlt) in Hcs. subst cs.
  apply sliding_chunks_nth in Hc as [Hi ->].
  unfold Sliding.chunk_at. cbn [text page_num chunk_id].
  rewrite split_join_tokens by (apply window_tokens, split_tokens).
  fold (Sliding.window_at (split t) size step i).
  assert (Hstep : 0 < step) by lia.
  apply (num_windows_lt self (len (split t)) i Hstep (len_nonneg _)) in Hi.
  assert (Hlen : (0 < length (Sliding.window_at (split t) size step i)
                  <= Z.to_nat size)%nat).
  { unfold Sliding.window_at. rewrite length_firstn, length_skipn.
    assert (Z.of_nat (i * Z.to_nat step) < len (split t)).
    { rewrite Nat2Z.inj_mul, Z2Nat.id by lia. exact Hi. }
    unfold len in *. lia. }
  repeat split; try lia.
  intros E. rewrite E in Hlen. simpl in Hlen. lia.
Qed.

Lemma concat_steps (s : nat) :
  (0 < s)%nat ->
  forall k (l : list str),
    (length l <= k * s)%nat ->
    concat (map (fun i => firstn s (skipn (i * s) l)) (seq 0 k)) = l.
Proof.
  intros Hs. induction k as [|k IH]; intros l Hl.
  - destruct l; [reflexivity|simpl in Hl; lia].
  - cbn [seq map concat]. rewrite <- seq_shift, map_map.
    transitivity (firstn s l ++ skipn s l); [|apply firstn_skipn].
    f_equal.
    rewrite <- (IH (skipn s l))
      by (rewrite length_skipn; simpl in Hl; lia).
    f_equal. apply map_ext. intros i.
    rewrite skipn_skipn. do 2 f_equal. lia.
Qed.

(** X6. With chunk_size > chunk_overlap >= 0 no token of the page is lost or
    reordered: taking from every chunk its first [step] tokens (the part the
    next chunk does not repeat) and concatenating gives back the tokens of
    the page. *)
Theorem chunk_text_covers_page (fuel : nat) (t : str) (page cid : Z)
    (cs : list Chunk) :
  0 <= chunk_overlap self -> chunk_overlap self < chunk_size self ->
  chunk_text fuel self t page cid = Some cs ->
  concat (map (fun c => firstn (Z.to_nat step) (split (text c))) cs)
  = split t.
Proof.
  intros Hov Hlt Hcs.
  apply (chunk_text_is_sliding _ _ _ _ _ Hov Hlt) in Hcs. subst cs.
  unfold Sliding.sliding_chunks. rewrite map_map.
  assert (Hstep : 0 < step) by lia.
  rewrite <- (concat_steps (Z.to_nat step) ltac:(lia)
                (Sliding.num_windows (len (split t)) step) (split t)) at 2.
  - f_equal. apply map_ext. intros i.
    unfold Sliding.chunk_at. cbn [text].
    rewrite split_join_tokens by (apply window_tokens, split_tokens).
    unfold Sliding.window_at.
    rewrite firstn_firstn. f_equal. lia.
  - unfold Sliding.num_windows.
    pose proof (Z.div_mod (len (split t) + step - 1) step ltac:(lia)) as Hdm.
    pose proof (Z.mod_pos_bound (len (split t) + step - 1) step Hstep)
      as Hmod.
    pose proof (len_nonneg (split t)) as Hn.
    assert (Hq : 0 <= (len (split t) + step - 1) / step)
      by (apply Z.div_pos; lia).
    apply Nat2Z.inj_le. rewrite Nat2Z.inj_mul, !Z2Nat.id by lia.
    unfold len in *. nia.
Qed.

(** X7. With chunk_size > chunk_overlap >= 0, a cleaned page text that is not
    empty gives at least one chunk; it gives exactly one chunk when it has
    at most [step] tokens, and more than one otherwise (also when all its
    tokens fit into one window); when its tokens fit into one window the
    first chunk's text is the cleaned page text itself. *)
Theorem page_chunk_count (fuel : nat) (raw : str) (page cid : Z)
    (cs : list Chunk) :
  0 <= chunk_overlap self -> chunk_overlap self < chunk_size self ->
  clean_text raw <> [] ->
  chunk_text fuel self (clean_text raw) page cid = Some cs ->
  (1 <= length cs)%nat
  /\ (length cs = 1%nat <-> len (split (clean_text raw)) <= step)
  /\ (len (split (clean_text raw)) <= size ->
      exists rest, cs = mkChunk (clean_text raw) page cid :: rest).
Proof.
  intros Hov Hlt Hne Hcs.
  apply (chunk_text_is_sliding _ _ _ _ _ Hov Hlt) in Hcs. subst cs.
  set (t := clean_text raw) in *.
  assert (Hstep : 0 < step) by lia.
  pose proof (clean_text_tokens raw Hne) as Hw. fold t in Hw.
  assert (Hn : 0 < len (split t)).
  { destruct (split t); [contradiction|]. unfold len. simpl. lia. }
  pose proof (num_windows_lt self (len (split t)) 0 Hstep (len_nonneg _))
    as H0.
  pose proof (num_windows_lt self (len (split t)) 1 Hstep (len_nonneg _))
    as H1.
  change (Z.of_nat 0) with 0 in H0. change (Z.of_nat 1) with 1 in H1.
  rewrite Z.mul_0_l in H0. rewrite Z.mul_1_l in H1.
  unfold Sliding.sliding_chunks. rewrite length_map, length_seq.
  split; [|split].
  - apply H0. lia.
  - split; intros H.
    + destruct (Z_le_gt_dec (len (split t)) step) as [Hle|Hgt];
        [exact Hle|].
      assert (1 < Sliding.num_windows (len (split t)) step)%nat
        by (apply H1; lia). lia.
    + assert (~ (1 < Sliding.num_windows (len (split t)) step)%nat).
      { intros Hc. apply H1 in Hc. lia. }
      assert (0 < Sliding.num_windows (len (split t)) step)%nat
        by (apply H0; lia). lia.
  - intros Hfit.
    assert (Hpos : (0 < Sliding.num_windows (len (split t)) step)%nat)
      by (apply H0; lia).
    destruct (Sliding.num_windows (len (split t)) step) as [|k];
      [lia|].
    cbn [seq map]. eexists. f_equal.
    unfold Sliding.chunk_at. rewrite Z.add_0_r. f_equal.
    unfold Sliding.window_at. simpl skipn.
    rewrite firstn_all2 by (unfold len in Hfit; lia).
    destruct (clean_text_normal raw) as [Hss Hst].
    apply join_split_normal; assumption.
Qed.

End ChunkerMore.

(** A page of three tokens with windows of 3 moving by 2: two chunks, the
    first the page itself. *)
Lemma page_chunk_count_witness :
  exists rest,
    [mkChunk (lit "a b c") 1 0; mkChunk (lit "c") 1 1]
    = mkChunk (clean_text (lit " a  b c ")) 1 0 :: rest.
Proof.
  exact (proj2 (proj2 (page_chunk_count (mkPDFProcessor 3 1) 4 (lit " a  b c ") 1 0
                         [mkChunk (lit "a b c") 1 0; mkChunk (lit "c") 1 1]
                         ltac:(simpl; lia) ltac:(simpl; lia)
                         ltac:(vm_compute; discriminate) eq_refl))
           ltac:(vm_compute; discriminate)).
Defined.

(** The second chunk of five tokens under windows of 3 moving by 2 holds the
    tokens 2 to 4. *)
Lemma chunk_text_retokenizes_witness :
  split (lit "c d e") = [lit "c"; lit "d"; lit "e"]
  /\ chunk_id (mkChunk (lit "c d e") 2 8) = 7 + 1.
Proof.
  pose proof (chunk_text_retokenizes (mkPDFProcessor 3 1) 6
                (lit "a b  c d e") 2 7
                [mkChunk (lit "a b c") 2 7; mkChunk (lit "c d e") 2 8;
                 mkChunk (lit "e") 2 9]
                1%nat (mkChunk (lit "c d e") 2 8)
                ltac:(simpl; lia) ltac:(simpl; lia) eq_refl eq_refl)
    as (H1 & _ & _ & _ & H5).
  split; [exact H1 | exact H5].
Defined.

(** The same three chunks give the five tokens back. *)
Lemma chunk_text_covers_page_witness :
  concat (map (fun c => firstn 2 (split (text c)))
              [mkChunk (lit "a b c") 2 7; mkChunk (lit "c d e") 2 8;
               mkChunk (lit "e") 2 9])
  = split (lit "a b  c d e").
Proof.
  exact (chunk_text_covers_page (mkPDFProcessor 3 1) 6 (lit "a b  c d e") 2 7
           [mkChunk (lit "a b c") 2 7; mkChunk (lit "c d e") 2 8;
            mkChunk (lit "e") 2 9]
           ltac:(simpl; lia) ltac:(simpl; lia) eq_refl).
Defined.

Section DocumentFacts.

Variable self : PDFProcessor.

(** A page with a token gives at least one chunk, whatever the sizes: the
    loop body runs before the first test can fail. *)
Lemma chunk_text_nonempty (fuel : nat) (t : str) (page cid : Z)
    (cs : list Chunk) :
  split t <> [] ->
  chunk_text fuel self t page cid = Some cs -> cs <> [].
Proof.
  intros Hw. unfold chunk_text.
  destruct (split t) as [|w ws] eqn:E; [contradiction|].
  simpl negb. cbv iota. destruct fuel as [|fuel]; [discriminate|].
  cbn [chunk_loop].
  assert (E0 : (0 <? len (w :: ws)) = true).
  { apply Z.ltb_lt. unfold len. simpl. lia. }
  rewrite E0. intros H.
  apply chunk_loop_ids in H as (new & -> & _). simpl. discriminate.
Qed.

(** The chunks of a document come in one non-empty group per page, each
    group carrying the number of its page. *)
Lemma process_pages_groups (fuel : nat) (pages : list (Z * str)) :
  Forall (fun p => split (snd p) <> []) pages ->
  forall acc counter res,
    process_pages fuel self pages acc counter = Some res ->
    exists groups,
      res = acc ++ concat groups
      /\ Forall2 (fun g p => g <> []
                             /\ Forall (fun c => page_num c = fst p) g)
                 groups pages.
Proof.
  induction pages as [|[page t] pages IH]; intros Hw acc counter res H;
    simpl in H.
  - injection H as <-. exists []. rewrite app_nil_r. split; constructor.
  - inversion Hw as [|? ? Ht Hrest]; subst. simpl in Ht.
    destruct (chunk_text fuel self t page counter) as [pc|] eqn:E;
      [|discriminate].
    apply (IH Hrest) in H as (groups & -> & Hg).
    exists (pc :: groups). simpl. rewrite app_assoc. split; [reflexivity|].
    constructor; [|exact Hg]. split.
    + apply (chunk_text_nonempty _ _ _ _ _ Ht E).
    + apply (chunk_text_ids self _ _ _ _ _ E).
Qed.

Lemma sorted_constant_prefix (x : Z) (l rest : list Z) :
  (forall y, In y l -> y = x) ->
  Sorted.StronglySorted Z.le rest ->
  Forall (Z.le x) rest ->
  Sorted.StronglySorted Z.le (l ++ rest).
Proof.
  intros Hl Hs Hr. induction l as [|y l IH]; [exact Hs|].
  simpl. constructor.
  - apply IH. intros z Hz. apply Hl. right. exact Hz.
  - rewrite (Hl y (or_introl eq_refl)).
    apply Forall_app. split; [|exact Hr].
    rewrite Forall_forall. intros z Hz.
    rewrite (Hl z (or_intror Hz)). lia.
Qed.

Lemma groups_pages (groups : list (list Chunk)) (pages : list (Z * str)) :
  Forall2 (fun g p => g <> [] /\ Forall (fun c => page_num c = fst p) g)
          groups pages ->
  (forall p, In p (map page_num (concat groups)) <-> In p (map fst pages))
  /\ (length pages <= length (concat groups))%nat
  /\ (Sorted.StronglySorted Z.lt (map fst pages) ->
      Sorted.StronglySorted Z.le (map page_num (concat groups))).
Proof.
  induction 1 as [|g [page t] groups pages [Hne Hg] _ (IHin & IHlen & IHs)].
  - simpl. repeat split; try tauto; try lia. intros _. constructor.
  - simpl concat. simpl map at 2. simpl length at 1.
    assert (Hpg : forall p, In p (map page_num g) <-> p = page).
    { intros p. rewrite in_map_iff. simpl in Hg.
      rewrite Forall_forall in Hg. split.
      - intros (c & <- & Hc). apply Hg. exact Hc.
      - intros ->. destruct g as [|c g]; [contradiction|].
        exists c. split; [apply Hg|]; left; reflexivity. }
    split; [|split].
    + intros p. rewrite map_app, in_app_iff, Hpg, IHin. simpl.
      split; intros [E|E]; auto.
    + rewrite length_app. destruct g; [contradiction|]. simpl. lia.
    + intros Hs. inversion Hs as [|? ? Hs' Hall]; subst.
      rewrite map_app. apply sorted_constant_prefix with (x := page).
      * intros p Hp. apply Hpg. exact Hp.
      * apply IHs. exact Hs'.
      * rewrite Forall_forall in *. intros p Hp.
        apply IHin in Hp. specialize (Hall p Hp). lia.
Qed.

(** X8. In the chunks of a whole document every page that
    [extract_text_by_page] kept is present with at least one chunk, no other
    page number occurs, and the chunks come in page order: their page
    numbers never decrease along the list. This holds for whatever
    [process_pdf] returns, valid sizes or not. *)
Theorem process_pdf_pages (fuel : nat) (reader_pages : list (option str))
    (cs : list Chunk) :
  process_pdf fuel self reader_pages = Some cs ->
  (forall p, In p (map page_num cs)
             <-> In p (map fst (extract_text_by_page reader_pages)))
  /\ (length (extract_text_by_page reader_pages) <= length cs)%nat
  /\ Sorted.StronglySorted Z.le (map page_num cs).
Proof.
  unfold process_pdf. intros H.
  apply process_pages_groups in H as (groups & -> & Hg);
    [|apply extract_pages_tokens].
  simpl app. destruct (groups_pages _ _ Hg) as (Hin & Hlen & Hs).
  split; [exact Hin|]. split; [exact Hlen|].
  apply Hs. apply extract_pages_sorted.
Qed.

Lemma ids_from_NoDup (cid : Z) (n : nat) : NoDup (ids_from cid n).
Proof.
  revert cid. induction n as [|n IH]; intros cid; [constructor|].
  rewrite (ids_from_S self). constructor; [|apply IH].
  unfold ids_from. intros Hin. apply in_map_iff in Hin as (i & Hi & _). lia.
Qed.

Lemma NoDup_map_through {A B C : Type} (f : A -> B) (g : A -> C)
    (l : list A) :
  (forall x y, f x = f y -> g x = g y) ->
  NoDup (map g l) -> NoDup (map f l).
Proof.
  intros Hfg. induction l as [|x l IH]; intros H; simpl in *; [constructor|].
  inversion H as [|? ? Hx Hl]; subst. constructor; [|apply IH; exact Hl].
  intros Hin. apply Hx. apply in_map_iff in Hin as (y & Hy & Hyl).
  apply in_map_iff. exists y. split; [|exact Hyl].
  apply Hfg. exact Hy.
Qed.

(** X24. Within one document no two chunks share a citation: the citation
    tokens of the chunks [process_pdf] returns are pairwise different, so a
    citation in an answer points to one chunk only. *)
Theorem process_pdf_citations_unique (fuel : nat)
    (reader_pages : list (option str)) (cs : list Chunk) :
  process_pdf fuel self reader_pages = Some cs ->
  NoDup (map get_citation cs).
Proof.
  unfold process_pdf. intros H.
  apply process_pages_ids in H as (new & -> & Hids). simpl.
  apply (NoDup_map_through get_citation chunk_id).
  - intros x y E. apply (citation_numbers x y E).
  - rewrite Hids. apply ids_from_NoDup.
Qed.

End DocumentFacts.

(** The four chunks of the three-page document cite differently. *)
Lemma process_pdf_citations_unique_witness :
  NoDup [lit "[p1:c0]"; lit "[p1:c1]"; lit "[p1:c2]"; lit "[p3:c3]"].
Proof.
  exact (process_pdf_citations_unique (mkPDFProcessor 2 1) 4
           [Some (lit "a b c"); None; Some (lit " d ")]
           [mkChunk (lit "a b") 1 0; mkChunk (lit "b c") 1 1;
            mkChunk (lit "c") 1 2; mkChunk (lit "d") 3 3] eq_refl).
Defined.

(** Three pages, the second unreadable: chunks of pages 1 and 3 only, in
    that order. *)
Lemma process_pdf_pages_witness :
  Sorted.StronglySorted Z.le
    (map page_num
       [mkChunk (lit "a b") 1 0; mkChunk (lit "b c") 1 1;
        mkChunk (lit "c") 1 2; mkChunk (lit "d") 3 3]).
Proof.
  exact (proj2 (proj2 (process_pdf_pages (mkPDFProcessor 2 1) 4
                         [Some (lit "a b c"); None; Some (lit " d ")]
                         _ eq_refl))).
Defined.

(* ===================================================================== *)
(** * Further properties: retrieval *)
(* ===================================================================== *)

Section RetrievalFacts.

Variable embed : str -> list float.
Variable normalize_L2 : list (list float) -> list (list float).
Variable index_search :
  FaissIndex -> list (list float) -> Z -> call (list (Z * float)).

Local Abbreviation retrieve := (search embed normalize_L2 index_search).
Local Abbreviation hits_of := (faiss_hits embed normalize_L2 index_search).

Lemma search_as_loop (self : VectorStore) (query : str) (k : Z) :
  retrieve self query k
  = bind (of_call (hits_of self query k))
         (fun hits => search_loop self hits []).
Proof.
  unfold search, faiss_hits. destruct (index self); reflexivity.
Qed.

(** [search] either passes on the exception of the FAISS call or runs its
    loop on the labels returned. *)
Lemma search_cases (self : VectorStore) (query : str) (k : Z) :
  (exists e, hits_of self query k = Raises e
             /\ retrieve self query k = Raise e)
  \/ (exists hits, hits_of self query k = Returns hits
                   /\ retrieve self query k = search_loop self hits []).
Proof.
  rewrite search_as_loop. destruct (hits_of self query k) as [hits|e].
  - right. exists hits. split; reflexivity.
  - left. exists e. split; reflexivity.
Qed.

Lemma index_in {A : Type} (l : list A) (i : Z) (x : A) :
  Py.index l i = Some x -> In x l.
Proof.
  unfold Py.index.
  destruct ((0 <=? i) && (i <? len l)).
  - apply nth_error_In.
  - destruct ((- len l <=? i) && (i <? 0)); [apply nth_error_In|discriminate].
Qed.

Lemma index_defined {A : Type} (l : list A) (i : Z) :
  - len l <= i < len l -> exists x, Py.index l i = Some x.
Proof.
  intros Hi. unfold Py.index.
  destruct (Z_lt_ge_dec i 0) as [Hneg|Hpos].
  - assert (E1 : (0 <=? i) && (i <? len l) = false).
    { apply andb_false_iff. left. apply Z.leb_gt. lia. }
    assert (E2 : (- len l <=? i) && (i <? 0) = true).
    { apply andb_true_iff. split; [apply Z.leb_le|apply Z.ltb_lt]; lia. }
    rewrite E1, E2.
    destruct (nth_error l (Z.to_nat (i + len l))) eqn:E; [eexists; reflexivity|].
    apply nth_error_None in E. unfold len in *. lia.
  - assert (E1 : (0 <=? i) && (i <? len l) = true).
    { apply andb_true_iff. split; [apply Z.leb_le|apply Z.ltb_lt]; lia. }
    rewrite E1.
    destruct (nth_error l (Z.to_nat i)) eqn:E; [eexists; reflexivity|].
    apply nth_error_None in E. unfold len in *. lia.
Qed.

Lemma index_undefined {A : Type} (l : list A) (i : Z) :
  i < len l -> Py.index l i = None -> i < - len l.
Proof.
  intros Hlt H.
  destruct (Z_lt_ge_dec i (- len l)) as [|Hge]; [assumption|].
  destruct (index_defined l i ltac:(lia)) as [x Hx]. congruence.
Qed.

(** What the loop of [search] returns: the results so far, extended by one
    stored chunk for every label below [len(self.chunks)], in the order of
    the labels and with their scores. *)
Lemma search_loop_results (self : VectorStore) (hits : list (Z * float)) :
  forall acc res,
    search_loop self hits acc = Ok res ->
    exists found,
      res = acc ++ found
      /\ map snd found
         = map snd (filter (fun h => fst h <? len (chunks self)) hits)
      /\ Forall (fun r => In (fst r) (chunks self)) found.
Proof.
  induction hits as [|[idx score] hits IH]; intros acc res H; simpl in H.
  - injection H as <-. exists []. rewrite app_nil_r.
    repeat split; constructor.
  - cbn [filter fst]. destruct (idx <? len (chunks self)).
    + destruct (Py.index (chunks self) idx) as [c|] eqn:E;
        [|discriminate].
      simpl in H. apply IH in H as (found & -> & Hs & Hin).
      exists ((c, score) :: found). rewrite <- app_assoc.
      split; [reflexivity|]. split.
      * simpl. f_equal. exact Hs.
      * constructor; [|exact Hin]. simpl. apply (index_in _ _ _ E).
    + apply IH in H. exact H.
Qed.

Lemma search_loop_raises (self : VectorStore) (hits : list (Z * float)) :
  forall acc,
    match search_loop self hits acc with
    | Ok _ => True
    | Raise e =>
        e = IndexError
        /\ Exists (fun h => fst h < - len (chunks self)) hits
    | Running => False
    end.
Proof.
  induction hits as [|[idx score] hits IH]; intros acc; simpl; [exact I|].
  destruct (idx <? len (chunks self)) eqn:El.
  - destruct (Py.index (chunks self) idx) as [c|] eqn:E; simpl.
    + specialize (IH (acc ++ [(c, score)])).
      destruct (search_loop self hits (acc ++ [(c, score)])); try exact IH.
      destruct IH as [-> Hex]. split; [reflexivity|].
      apply Exists_cons_tl. exact Hex.
    + split; [reflexivity|]. apply Exists_cons_hd. simpl.
      apply Z.ltb_lt in El. apply index_undefined; assumption.
  - specialize (IH acc). destruct (search_loop self hits acc); try exact IH.
    destruct IH as [-> Hex]. split; [reflexivity|].
    apply Exists_cons_tl. exact Hex.
Qed.

Lemma search_not_running (self : VectorStore) (query : str) (k : Z) :
  retrieve self query k <> Running.
Proof.
  destruct (search_cases self query k)
    as [(e & _ & ->) | (hits & _ & ->)]; [discriminate|].
  pose proof (search_loop_raises self hits []) as H.
  destruct (search_loop self hits []); [discriminate|discriminate|].
  contradiction.
Qed.

Lemma search_ok_loop (self : VectorStore) (query : str) (k : Z)
    (results : list (Chunk * float)) :
  retrieve self query k = Ok results ->
  exists hits,
    hits_of self query k = Returns hits
    /\ search_loop self hits [] = Ok results.
Proof.
  destruct (search_cases self query k)
    as [(e & _ & ->) | (hits & Hh & ->)]; [discriminate|].
  intros H. exists hits. split; assumption.
Qed.


(** X9. Every chunk [search] returns is one of the chunks stored in the
    vector store, and the results are in the order of the labels FAISS
    returned, one result with the label's score for every label below
    [len(self.chunks)]: never more results than labels. *)
Theorem search_results_are_stored (self : VectorStore) (query : str) (k : Z)
    (results : list (Chunk * float)) :
  retrieve self query k = Ok results ->
  exists hits,
    hits_of self query k = Returns hits
    /\ Forall (fun r => In (fst r) (chunks self)) results
    /\ map snd results
       = map snd (filter (fun h => fst h <? len (chunks self)) hits)
    /\ (length results <= length hits)%nat.
Proof.
  destruct (search_cases self query k)
    as [(e & _ & ->) | (hits & Hh & ->)]; [discriminate|].
  intros H. exists hits. split; [exact Hh|].
  apply search_loop_results in H as (found & -> & Hs & Hin). simpl.
  split; [exact Hin|]. split; [exact Hs|].
  rewrite <- (length_map snd found), Hs, length_map. apply filter_length_le.
Qed.

Lemma search_loop_empty_iff (self : VectorStore) (hits : list (Z * float)) :
  search_loop self hits [] = Ok []
  <-> Forall (fun h => len (chunks self) <= fst h) hits.
Proof.
  split.
  - intros H. apply search_loop_results in H as (found & Hf & Hs & _).
    simpl in Hf. subst found. simpl in Hs.
    induction hits as [|[idx score] hits IH]; [constructor|].
    cbn [filter fst] in Hs. destruct (idx <? len (chunks self)) eqn:E;
      [discriminate|].
    constructor; [apply Z.ltb_ge in E; exact E|apply IH; exact Hs].
  - intros H. induction H as [|[idx score] hits Hh _ IH]; [reflexivity|].
    simpl in *. assert (E : (idx <? len (chunks self)) = false)
      by (apply Z.ltb_ge; exact Hh).
    rewrite E. exact IH.
Qed.

(** X10. [search] returns the empty list exactly when the store has no index
    or the FAISS call returns and every label it returned is at or above
    [len(self.chunks)]; a single label below that bound, -1 included, makes
    the result non-empty. *)
Theorem search_empty_iff (self : VectorStore) (query : str) (k : Z) :
  retrieve self query k = Ok []
  <-> exists hits,
        hits_of self query k = Returns hits
        /\ Forall (fun h => len (chunks self) <= fst h) hits.
Proof.
  destruct (search_cases self query k)
    as [(e & He & ->) | (hits & Hh & ->)].
  - split; [discriminate|]. intros (hits & Hh & _). congruence.
  - rewrite search_loop_empty_iff. split.
    + intros H. exists hits. split; assumption.
    + intros (hits' & Hh' & H). rewrite Hh in Hh'. injection Hh' as <-.
      exact H.
Qed.

(** X11. [search] fails in two ways only. Either the FAISS call itself
    raises (AssertionError for [top_k <= 0], for one) and that exception
    leaves [search] as it is; or the call returns a label below
    [-len(self.chunks)] (for a store without chunks: any negative label)
    and reading the chunk raises IndexError. When the call returns and
    every label is at or above [-len(self.chunks)], [search] returns a
    list. *)
Theorem search_failures (self : VectorStore) (query : str) (k : Z) :
  (forall e,
      retrieve self query k = Raise e ->
      hits_of self query k = Raises e
      \/ (e = IndexError
          /\ exists hits,
               hits_of self query k = Returns hits
               /\ Exists (fun h => fst h < - len (chunks self)) hits))
  /\ (forall e,
        hits_of self query k = Raises e -> retrieve self query k = Raise e)
  /\ retrieve self query k <> Running
  /\ (forall hits,
        hits_of self query k = Returns hits ->
        Forall (fun h => - len (chunks self) <= fst h) hits ->
        exists results, retrieve self query k = Ok results).
Proof.
  destruct (search_cases self query k)
    as [(e & He & ->) | (hits & Hh & ->)].
  - split; [|split; [|split]].
    + intros e' E. injection E as <-. left. exact He.
    + intros e' E. congruence.
    + discriminate.
    + intros hits Hh. congruence.
  - pose proof (search_loop_raises self hits []) as H.
    destruct (search_loop self hits []) as [r|e|].
    + split; [intros e' E; discriminate|].
      split; [intros e' E; congruence|]. split; [discriminate|].
      intros hits' _ _. exists r. reflexivity.
    + destruct H as [-> Hex]. split; [|split; [|split]].
      * intros e' E. injection E as <-. right.
        split; [reflexivity|]. exists hits. split; assumption.
      * intros e' E. congruence.
      * discriminate.
      * intros hits' Hh' Hall. exfalso.
        rewrite Hh in Hh'. injection Hh' as <-.
        rewrite Forall_forall in Hall.
        apply Exists_exists in Hex as (h & Hin & Hlt).
        specialize (Hall h Hin). lia.
    + contradiction.
Qed.

End RetrievalFacts.

(** The two failures on concrete stores: [top_k = 0] on the one-chunk store,
    and the padding label on a store without chunks. *)
Lemma search_failures_witness :
  search Sample.embed Sample.normalize_L2 Sample.index_search
         (mkVectorStore (Some (mkFaissIndex 1 [[1.0%float]]))
                        [Sample.alpha] (Some 1)) (lit "q") 0
  = Raise AssertionError
  /\ (search Sample.embed Sample.normalize_L2 Sample.index_search
             (mkVectorStore (Some (mkFaissIndex 1 [])) [] (Some 1))
             (lit "q") 1
      = Raise IndexError
      /\ (faiss_hits Sample.embed Sample.normalize_L2 Sample.index_search
            (mkVectorStore (Some (mkFaissIndex 1 [])) [] (Some 1))
            (lit "q") 1
          = Raises IndexError
          \/ (IndexError = IndexError
              /\ exists hits,
                   faiss_hits Sample.embed Sample.normalize_L2
                     Sample.index_search
                     (mkVectorStore (Some (mkFaissIndex 1 [])) [] (Some 1))
                     (lit "q") 1
                   = Returns hits
                   /\ Exists (fun h => fst h < - len (@nil Chunk)) hits))).
Proof.
  split.
  - exact (proj1 (proj2 (search_failures Sample.embed Sample.normalize_L2
                           Sample.index_search
                           (mkVectorStore
                              (Some (mkFaissIndex 1 [[1.0%float]]))
                              [Sample.alpha] (Some 1)) (lit "q") 0))
             AssertionError eq_refl).
  - split; [reflexivity|].
    exact (proj1 (search_failures Sample.embed Sample.normalize_L2
                    Sample.index_search
                    (mkVectorStore (Some (mkFaissIndex 1 [])) [] (Some 1))
                    (lit "q") 1)
             IndexError eq_refl).
Defined.

(** The one-chunk store searched with [top_k = 2]: two results, both the
    stored chunk. *)
Lemma search_results_are_stored_witness :
  exists hits,
    faiss_hits Sample.embed Sample.normalize_L2 Sample.index_search
      (mkVectorStore (Some (mkFaissIndex 1 [[1.0%float]]))
                     [Sample.alpha] (Some 1))
      (lit "alpha?") 2
    = Returns hits
    /\ Forall (fun r => In (fst r) [Sample.alpha])
              [(Sample.alpha, 0.9%float); (Sample.alpha, Sample.no_score)].
Proof.
  destruct (search_results_are_stored Sample.embed Sample.normalize_L2
              Sample.index_search
              (mkVectorStore (Some (mkFaissIndex 1 [[1.0%float]]))
                             [Sample.alpha] (Some 1))
              (lit "alpha?") 2 _ eq_refl) as (hits & H1 & H2 & _).
  exists hits. split; [exact H1 | exact H2].
Defined.

(* ===================================================================== *)
(** * Further properties: answer generation and the session *)
(* ===================================================================== *)

(** X12. [LLMInterface.__init__] never activates both services. Gemini is
    active exactly when a Gemini key is set (argument or environment) and
    its client starts, whatever the OpenAI settings; OpenAI is active only
    when Gemini is not, an OpenAI key is set and its client starts. The
    constructor raises only when Gemini is not active, an OpenAI key is set
    and the OpenAI client fails with something else than a missing
    package. *)
Theorem LLMInterface_init_modes (env : Env) (api_key gemini_key : option str) :
  let gemini_on :=
    key_given (or_else gemini_key (GEMINI_API_KEY env))
    && match genai_client env with Started => true | _ => false end in
  let openai_key_set := key_given (or_else api_key (OPENAI_API_KEY env)) in
  (forall l,
      LLMInterface_init env api_key gemini_key = Ok l ->
      use_gemini l = gemini_on
      /\ use_openai l
         = negb gemini_on && openai_key_set
           && match openai_client env with Started => true | _ => false end
      /\ use_gemini l && use_openai l = false)
  /\ (forall e,
        LLMInterface_init env api_key gemini_key = Raise e ->
        gemini_on = false /\ openai_key_set = true
        /\ exists msg, e = ClientError msg
                       /\ openai_client env = InitFailed msg)
  /\ LLMInterface_init env api_key gemini_key <> Running.
Proof.
  unfold LLMInterface_init. cbv zeta.
  destruct (key_given (or_else gemini_key (GEMINI_API_KEY env)));
    destruct (genai_client env) as [| |gmsg];
    destruct (key_given (or_else api_key (OPENAI_API_KEY env)));
    destruct (openai_client env) as [| |msg]; simpl;
    (split; [|split; [|discriminate]]);
    try (intros l E; injection E as <-; repeat split; reflexivity);
    try (intros l E; discriminate);
    try (intros e E; discriminate);
    try (intros e E; injection E as <-; repeat split; exists msg;
         split; reflexivity).
Qed.

(** Both keys in the environment and both clients starting: Gemini only. *)
Lemma LLMInterface_init_modes_witness :
  use_gemini (mkLLMInterface false true) = true
  /\ use_openai (mkLLMInterface false true) = false.
Proof.
  pose proof (proj1 (LLMInterface_init_modes
                       (mkEnv (Some (lit "sk-1")) (Some (lit "g-1"))
                              Started Started) None None)
                (mkLLMInterface false true) eq_refl) as (H1 & H2 & _).
  split; [exact H1 | exact H2].
Defined.

Section GenerationFacts.

Variable embed : str -> list float.
Variable normalize_L2 : list (list float) -> list (list float).
Variable index_search :
  FaissIndex -> list (list float) -> Z -> call (list (Z * float)).
Variable gemini : str -> Reply.
Variable openai : list Msg -> Reply.

Local Abbreviation retrieve := (search embed normalize_L2 index_search).
Local Abbreviation ask :=
  (answer_question embed normalize_L2 index_search gemini openai).
Local Abbreviation generate := (generate_answer gemini openai).
Local Abbreviation reply := (reply_to gemini openai).

(** X13. [generate_answer] sends at most one request: none in fallback mode,
    exactly one otherwise (to Gemini when it is active, else to OpenAI). Its
    answer is the reply's text with the surrounding whitespace stripped when
    the request succeeds, and the deterministic composer's answer on the
    same results in every other case. *)
Theorem generate_answer_shape (self : LLMInterface) (query : str)
    (context_chunks : list (Chunk * float)) (history : list Msg) :
  let answer := fst (generate self query context_chunks history) in
  let calls := snd (generate self query context_chunks history) in
  (use_gemini self || use_openai self = false ->
   calls = [] /\ answer = _fallback_answer context_chunks)
  /\ (use_gemini self || use_openai self = true ->
      exists c,
        calls = [c]
        /\ answer = match reply c with
                    | Text t => strip t
                    | _ => _fallback_answer context_chunks
                    end
        /\ match c with
           | GeminiCall _ _ => use_gemini self = true
           | OpenAICall _ => use_gemini self = false
           end).
Proof.
  unfold generate_answer. cbv zeta.
  destruct (use_gemini self); [|destruct (use_openai self)]; cbn [orb];
    (split; intros E; try discriminate).
  - match goal with |- context [gemini ?p] => destruct (gemini p) eqn:Er end;
      cbn [fst snd]; eexists;
      (split; [reflexivity|]); cbn [reply_to]; rewrite Er;
      split; reflexivity.
  - match goal with |- context [openai ?p] => destruct (openai p) eqn:Er end;
      cbn [fst snd]; eexists;
      (split; [reflexivity|]); cbn [reply_to]; rewrite Er;
      split; reflexivity.
  - split; reflexivity.
Qed.

(** [l[-k:]] for a positive [k]: the last [k] elements, or all of them. *)
Lemma slice_last {A : Type} (l : list A) (k : Z) :
  0 < k ->
  slice l (Some (- k)) None = skipn (length l - Z.to_nat k) l.
Proof.
  intros Hk. unfold slice, clamp.
  assert (E : (- k <? 0) = true) by (apply Z.ltb_lt; lia).
  rewrite E.
  replace (Z.to_nat (Z.max 0 (- k + len l)))
    with (length l - Z.to_nat k)%nat by (unfold len; lia).
  apply firstn_all2. rewrite length_skipn. unfold len. lia.
Qed.

(** X14. The request [generate_answer] sends to OpenAI is the system prompt,
    then the most recent turns of the history in their order, ten at most,
    then the user prompt built from the query and the retrieved context:
    between 2 and 12 messages. *)
Theorem openai_request_window (self : LLMInterface) (query : str)
    (context_chunks : list (Chunk * float)) (history : list Msg) :
  use_gemini self = false -> use_openai self = true ->
  exists messages,
    snd (generate self query context_chunks history) = [OpenAICall messages]
    /\ messages
       = mkMsg system system_prompt
         :: skipn (length history - 10) history
         ++ [mkMsg user (user_prompt query (context_of context_chunks))]
    /\ (2 <= length messages <= 12)%nat.
Proof.
  intros Hg Ho. unfold generate_answer. cbv zeta. rewrite Hg, Ho.
  change (-10) with (Z.opp 10). rewrite (slice_last history 10) by lia.
  change (Z.to_nat 10) with 10%nat.
  eexists. split; [|split; [reflexivity|]].
  - match goal with |- context [openai ?p] => destruct (openai p) end;
      reflexivity.
  - simpl. rewrite length_app, length_skipn. simpl. lia.
Qed.

(** X15. The retrieval query. With a generation service active, or with an
    empty history, it is the user's query unchanged. In fallback mode after
    an exchange (a history ending with a user turn and an assistant turn)
    it is the previous user question, a space, and the query. *)
Theorem enhanced_query_cases (self : RAGSystem) (query : str) :
  (use_openai (llm self) || use_gemini (llm self) = true ->
   enhanced_query self query = query)
  /\ (chat_history self = [] -> enhanced_query self query = query)
  /\ (use_openai (llm self) || use_gemini (llm self) = false ->
      forall before q0 a0,
        chat_history self = before ++ [mkMsg user q0; mkMsg assistant a0] ->
        enhanced_query self query = q0 ++ lit " " ++ query).
Proof.
  unfold enhanced_query. split; [|split].
  - intros ->. rewrite andb_false_r. reflexivity.
  - intros ->. reflexivity.
  - intros -> before q0 a0 Hh. rewrite Hh.
    assert (Ht : truthy (before ++ [mkMsg user q0; mkMsg assistant a0])
                 = true) by (destruct before; reflexivity).
    rewrite Ht. simpl andb. cbv iota.
    change (-4) with (Z.opp 4). rewrite (slice_last _ 4) by lia.
    change (Z.to_nat 4) with 4%nat.
    set (h := before ++ [mkMsg user q0; mkMsg assistant a0]).
    assert (Hs : exists pre, skipn (length h - 4) h
                   = pre ++ [mkMsg user q0; mkMsg assistant a0]).
    { unfold h. rewrite length_app. simpl length.
      destruct (Nat.le_gt_cases 2 (length before)) as [Hle|Hgt].
      - exists (skipn (length before - 2) before).
        rewrite skipn_app.
        replace (length before + 2 - 4)%nat with (length before - 2)%nat
          by lia.
        replace (length before - 2 - length before)%nat with 0%nat by lia.
        reflexivity.
      - exists before.
        replace (length before + 2 - 4)%nat with 0%nat by lia.
        reflexivity. }
    destruct Hs as [pre ->].
    unfold last_opt. rewrite filter_app, rev_app_distr. simpl.
    reflexivity.
Qed.

End GenerationFacts.

(** Fallback mode, one call. *)
Lemma generate_answer_shape_witness :
  snd (generate_answer Sample.gemini Sample.openai
         (mkLLMInterface false false) (lit "q")
         [(Sample.alpha, 0.9%float)] []) = []
  /\ fst (generate_answer Sample.gemini Sample.openai
            (mkLLMInterface false false) (lit "q")
            [(Sample.alpha, 0.9%float)] [])
     = _fallback_answer [(Sample.alpha, 0.9%float)].
Proof.
  exact (proj1 (generate_answer_shape Sample.gemini Sample.openai
                  (mkLLMInterface false false) (lit "q")
                  [(Sample.alpha, 0.9%float)] []) eq_refl).
Defined.

(** An OpenAI session with an empty history sends two messages. *)
Lemma openai_request_window_witness :
  exists messages,
    snd (generate_answer Sample.gemini Sample.openai
           (mkLLMInterface true false) (lit "q")
           [(Sample.alpha, 0.9%float)] []) = [OpenAICall messages]
    /\ (2 <= length messages <= 12)%nat.
Proof.
  destruct (openai_request_window Sample.gemini Sample.openai
              (mkLLMInterface true false) (lit "q")
              [(Sample.alpha, 0.9%float)] [] eq_refl eq_refl)
    as (messages & H1 & _ & H3).
  exists messages. split; [exact H1 | exact H3].
Defined.

(** The follow-up question in fallback mode. *)
Lemma enhanced_query_cases_witness :
  enhanced_query
    (mkRAGSystem 5 (mkPDFProcessor 500 100) (mkVectorStore None [] None)
       (mkLLMInterface false false)
       [mkMsg user (lit "EBITDA?"); mkMsg assistant (lit "[p1:c0] x")] [])
    (lit "and margins?")
  = lit "EBITDA? and margins?".
Proof.
  exact (proj2 (proj2 (enhanced_query_cases
                         (mkRAGSystem 5 (mkPDFProcessor 500 100)
                            (mkVectorStore None [] None)
                            (mkLLMInterface false false)
                            [mkMsg user (lit "EBITDA?");
                             mkMsg assistant (lit "[p1:c0] x")] [])
                         (lit "and margins?")))
           eq_refl [] (lit "EBITDA?") (lit "[p1:c0] x") eq_refl).
Defined.

Section SessionMore.

Variable embed : str -> list float.
Variable normalize_L2 : list (list float) -> list (list float).
Variable index_search :
  FaissIndex -> list (list float) -> Z -> call (list (Z * float)).
Variable gemini : str -> Reply.
Variable openai : list Msg -> Reply.

Local Abbreviation retrieve := (search embed normalize_L2 index_search).
Local Abbreviation hits_of := (faiss_hits embed normalize_L2 index_search).
Local Abbreviation ask :=
  (answer_question embed normalize_L2 index_search gemini openai).
Local Abbreviation generate := (generate_answer gemini openai).
Local Abbreviation init := (RAGSystem_init embed normalize_L2).

(** The three ways [answer_question] can end. *)
Lemma answer_question_cases (self : RAGSystem) (query : str) :
  (exists e,
      retrieve (vector_store self) (enhanced_query self query) (top_k self)
      = Raise e
      /\ ask self query = (Raise e, self, []))
  \/ (retrieve (vector_store self) (enhanced_query self query) (top_k self)
      = Ok []
      /\ ask self query = (Ok refusal, self, []))
  \/ (exists results,
        retrieve (vector_store self) (enhanced_query self query) (top_k self)
        = Ok results
        /\ results <> []
        /\ ask self query
           = (Ok (fst (generate (llm self) query results (chat_history self))),
              set_history self
                (chat_history self
                 ++ [mkMsg user query;
                     mkMsg assistant
                       (fst (generate (llm self) query results
                               (chat_history self)))]),
              snd (generate (llm self) query results (chat_history self)))).
Proof.
  unfold answer_question.
  pose proof (search_not_running embed normalize_L2 index_search
                (vector_store self) (enhanced_query self query)
                (top_k self)) as Hr.
  destruct (retrieve (vector_store self) (enhanced_query self query)
              (top_k self)) as [results|e|].
  - destruct results as [|r rs].
    + right. left. split; reflexivity.
    + right. right. exists (r :: rs). split; [reflexivity|].
      split; [discriminate|]. simpl negb. cbv iota.
      destruct (generate (llm self) query (r :: rs) (chat_history self)).
      reflexivity.
  - left. exists e. split; reflexivity.
  - contradiction Hr. reflexivity.
Qed.


Lemma excerpt_length (t : str) : (length (excerpt t) <= 203)%nat.
Proof.
  unfold excerpt. destruct (len t >? 200) eqn:E.
  - rewrite length_app, length_firstn.
    change (length (lit "...")) with 3%nat. lia.
  - rewrite Z.gtb_ltb in E. apply Z.ltb_ge in E.
    unfold len in *. lia.
Qed.

(** X17. In fallback mode [answer_question] never contacts a generation
    service, and every answer it returns is either the refusal string or
    grounded in the store: the citation of a stored chunk, a space, and
    that chunk's own text cut to at most 203 characters (200 and the
    marker). *)
Theorem fallback_answers_are_grounded (self : RAGSystem) (query : str)
    (answer : str) :
  use_gemini (llm self) = false -> use_openai (llm self) = false ->
  fst (fst (ask self query)) = Ok answer ->
  snd (ask self query) = []
  /\ (answer = refusal
      \/ exists c,
           In c (chunks (vector_store self))
           /\ answer = get_citation c ++ lit " " ++ excerpt (text c)
           /\ (length (excerpt (text c)) <= 203)%nat).
Proof.
  intros Hg Ho.
  destruct (answer_question_cases self query)
    as [(e & Hs & ->) | [(Hs & ->) | (results & Hs & Hne & ->)]];
    cbn [fst snd]; intros E; try discriminate.
  - injection E as <-. split; [reflexivity|left; reflexivity].
  - injection E as <-. unfold generate_answer. cbv zeta.
    rewrite Hg, Ho. cbn [fst snd]. split; [reflexivity|].
    destruct results as [|[top score] rest]; [contradiction|].
    unfold _fallback_answer.
    destruct (PrimFloat.ltb score threshold); [left; reflexivity|].
    right. exists top. split; [|split].
    + apply search_ok_loop in Hs as (hits & _ & Hs).
      apply search_loop_results in Hs as (found & Hf & _ & Hin).
      simpl in Hf. subst found. inversion Hin; subst. assumption.
    + rewrite slice_prefix by lia. reflexivity.
    + apply excerpt_length.
Qed.

(** What a session that was set up looks like. *)
Lemma RAGSystem_init_ok (fuel : nat) (env : Env)
    (reader_pages : list (option str)) (size overlap k : Z)
    (gemini_key openai_key : option str) (rag : RAGSystem) :
  init fuel env reader_pages size overlap k gemini_key openai_key = Ok rag ->
  chat_history rag = []
  /\ top_k rag = k
  /\ pdf_processor rag = mkPDFProcessor size overlap
  /\ LLMInterface_init env openai_key gemini_key = Ok (llm rag)
  /\ process_pdf fuel (mkPDFProcessor size overlap) reader_pages
     = Some (rag_chunks rag)
  /\ rag_chunks rag <> []
  /\ chunks (vector_store rag) = rag_chunks rag
  /\ index (vector_store rag) <> None
  /\ overlap < size.
Proof.
  unfold RAGSystem_init, PDFProcessor_init.
  destruct (LLMInterface_init env openai_key gemini_key) as [l|e|];
    simpl bind; try discriminate.
  destruct (process_pdf fuel (mkPDFProcessor size overlap) reader_pages)
    as [cs|] eqn:Ep; simpl; try discriminate.
  unfold build_index. destruct cs as [|c cs]; simpl; [discriminate|].
  intros H. injection H as <-. simpl.
  repeat split; try discriminate.
  destruct (Z_lt_ge_dec overlap size) as [|Hge]; [assumption|]. exfalso.
  destruct (extract_text_by_page reader_pages) as [|p ps] eqn:Ee.
  - unfold process_pdf in Ep. rewrite Ee in Ep. discriminate.
  - rewrite process_pdf_stuck in Ep; [discriminate|simpl; lia|].
    rewrite Ee. discriminate.
Qed.

(** X18. A session that [RAGSystem.__init__] returns starts with an empty
    history, holds the given [top_k] and sizes, has at least one chunk, the
    same chunks in the vector store, numbered 0, 1, 2, ..., and a built
    index; and its sizes satisfy chunk_size > chunk_overlap, since with any
    other sizes and a document with text the constructor does not return. *)
Theorem RAGSystem_init_session (fuel : nat) (env : Env)
    (reader_pages : list (option str)) (size overlap k : Z)
    (gemini_key openai_key : option str) (rag : RAGSystem) :
  init fuel env reader_pages size overlap k gemini_key openai_key = Ok rag ->
  chat_history rag = []
  /\ top_k rag = k
  /\ pdf_processor rag = mkPDFProcessor size overlap
  /\ rag_chunks rag <> []
  /\ chunks (vector_store rag) = rag_chunks rag
  /\ map chunk_id (rag_chunks rag) = ids_from 0 (length (rag_chunks rag))
  /\ index (vector_store rag) <> None
  /\ overlap < size.
Proof.
  intros H.
  apply RAGSystem_init_ok in H
    as (H1 & H2 & H3 & _ & H5 & H6 & H7 & H8 & H9).
  repeat split; try assumption.
  unfold process_pdf in H5.
  apply process_pages_ids in H5 as (new & E & Hids). simpl in E.
  rewrite E. exact Hids.
Qed.

End SessionMore.

(** A fallback session over the one-chunk store answers from that chunk. *)
Lemma fallback_answers_are_grounded_witness :
  snd (answer_question Sample.embed Sample.normalize_L2 Sample.index_search
         Sample.gemini Sample.openai
         (mkRAGSystem 1 (mkPDFProcessor 500 100)
            (vector_store Sample.one_chunk) (mkLLMInterface false false)
            [] [Sample.alpha])
         (lit "alpha?"))
  = [].
Proof.
  exact (proj1 (fallback_answers_are_grounded Sample.embed
                  Sample.normalize_L2 Sample.index_search Sample.gemini
                  Sample.openai
                  (mkRAGSystem 1 (mkPDFProcessor 500 100)
                     (vector_store Sample.one_chunk)
                     (mkLLMInterface false false) [] [Sample.alpha])
                  (lit "alpha?") (lit "[p1:c0] alpha beta")
                  eq_refl eq_refl eq_refl)).
Defined.

(** A one-page document set up with the default sizes. *)
Lemma RAGSystem_init_session_witness :
  chat_history
    (mkRAGSystem 5 (mkPDFProcessor 500 100)
       (mkVectorStore (Some (mkFaissIndex 1 [[1.0%float]]))
          [mkChunk (lit "alpha beta") 1 0] (Some 1))
       (mkLLMInterface false false) [] [mkChunk (lit "alpha beta") 1 0])
  = []
  /\ 100 < 500.
Proof.
  pose proof (RAGSystem_init_session Sample.embed Sample.normalize_L2 4
                (mkEnv None None NoPackage NoPackage)
                [Some (lit " alpha  beta ")] 500 100 5 None None
                (mkRAGSystem 5 (mkPDFProcessor 500 100)
                   (mkVectorStore (Some (mkFaissIndex 1 [[1.0%float]]))
                      [mkChunk (lit "alpha beta") 1 0] (Some 1))
                   (mkLLMInterface false false) []
                   [mkChunk (lit "alpha beta") 1 0])
                eq_refl) as (H1 & _ & _ & _ & _ & _ & _ & H8).
  split; [exact H1 | exact H8].
Defined.

Section HistoryFacts.

Variable embed : str -> list float.
Variable normalize_L2 : list (list float) -> list (list float).
Variable index_search :
  FaissIndex -> list (list float) -> Z -> call (list (Z * float)).
Variable gemini : str -> Reply.
Variable openai : list Msg -> Reply.

Local Abbreviation retrieve := (search embed normalize_L2 index_search).
Local Abbreviation hits_of := (faiss_hits embed normalize_L2 index_search).
Local Abbreviation ask :=
  (answer_question embed normalize_L2 index_search gemini openai).
Local Abbreviation ask_each :=
  (ask_all embed normalize_L2 index_search gemini openai).
Local Abbreviation turn :=
  (chat_turn embed normalize_L2 index_search gemini openai).
Local Abbreviation loop :=
  (chat_loop embed normalize_L2 index_search gemini openai).

Local Abbreviation well_served :=
  (well_served embed normalize_L2 index_search).

Lemma well_served_retrieves (store : VectorStore) (k : Z) (q : str) :
  well_served store k ->
  exists results, retrieve store q k = Ok results /\ results <> [].
Proof.
  intros Hw. destruct (Hw q) as (hits & Hh & Hall & Hex).
  rewrite search_as_loop, Hh. cbn [of_call bind].
  pose proof (search_loop_raises store hits []) as Hr.
  destruct (search_loop store hits []) as [results|e|] eqn:E.
  - exists results. split; [reflexivity|]. intros ->.
    apply search_loop_results in E as (found & Hf & Hs & _).
    simpl in Hf. subst found. simpl in Hs.
    apply Exists_exists in Hex as ([idx score] & Hin & Hlt). simpl in Hlt.
    assert (Hin' : In (idx, score)
                      (filter (fun h => fst h <? len (chunks store)) hits)).
    { apply filter_In. split; [exact Hin|]. apply Z.ltb_lt. exact Hlt. }
    destruct (filter (fun h => fst h <? len (chunks store)) hits);
      [contradiction|discriminate].
  - exfalso. destruct Hr as [_ Hex']. rewrite Forall_forall in Hall.
    apply Exists_exists in Hex' as (h & Hin & Hlt).
    specialize (Hall h Hin). lia.
  - contradiction.
Qed.

Lemma ask_all_well_served (store : VectorStore) (k : Z) :
  well_served store k ->
  forall queries self,
    vector_store self = store -> top_k self = k ->
    exists self' answers,
      ask_each self queries = Some (self', answers)
      /\ length answers = length queries
      /\ chat_history self'
         = chat_history self ++ turns_of (combine queries answers).
Proof.
  intros Hw. induction queries as [|q rest IH]; intros self Hst Hk.
  - exists self, []. simpl. rewrite app_nil_r. repeat split.
  - destruct (well_served_retrieves store k (enhanced_query self q) Hw)
      as (results & Hr & Hne).
    destruct (answer_question_cases embed normalize_L2 index_search gemini
                openai self q)
      as [(e & Hs & _) | [(Hs & _) | (results' & Hs & _ & Ha)]];
      rewrite Hst, Hk in Hs; rewrite Hr in Hs; try discriminate.
    { injection Hs as ->. contradiction. }
    cbn [ask_all]. rewrite Ha.
    match type of Ha with _ = (Ok ?a, ?s1, _) =>
      destruct (IH s1 Hst Hk) as (self' & answers & He & Hl & Hh);
      exists self', (a :: answers)
    end.
    rewrite He. split; [reflexivity|]. split; [simpl; rewrite Hl; reflexivity|].
    rewrite Hh. cbn [chat_history set_history combine turns_of flat_map fst snd].
    rewrite <- app_assoc. reflexivity.
Qed.

(** X19. The history invariant on a session whose index serves every query
    (each label FAISS returns can be read from the chunk list and at least
    one is below its length, as for a built index with [top_k >= 1]): any
    [N] successive calls of [answer_question] all return, and the history
    grows by exactly [2N] turns, the user turn with the query and the
    assistant turn with the returned answer for each call in order. *)
Theorem served_session_history (self : RAGSystem) (queries : list str) :
  well_served (vector_store self) (top_k self) ->
  exists self' answers,
    ask_each self queries = Some (self', answers)
    /\ length answers = length queries
    /\ chat_history self'
       = chat_history self ++ turns_of (combine queries answers)
    /\ length (chat_history self')
       = (length (chat_history self) + 2 * length queries)%nat.
Proof.
  intros Hw.
  destruct (ask_all_well_served _ _ Hw queries self eq_refl eq_refl)
    as (self' & answers & He & Hl & Hh).
  exists self', answers. repeat split; try assumption.
  rewrite Hh, length_app. f_equal.
  clear - Hl. revert answers Hl.
  induction queries as [|q rest IH]; intros [|a answers] Hl;
    simpl in *; try discriminate; [reflexivity|].
  rewrite (IH answers) by lia. lia.
Qed.

End HistoryFacts.

(** Two questions to the one-chunk session: four turns. *)
Lemma served_session_history_witness :
  exists self' answers,
    ask_all Sample.embed Sample.normalize_L2 Sample.index_search
            Sample.gemini Sample.openai Sample.one_chunk
            [lit "alpha?"; lit "beta?"]
    = Some (self', answers)
    /\ length (chat_history self') = 4%nat.
Proof.
  destruct (served_session_history Sample.embed Sample.normalize_L2
              Sample.index_search Sample.gemini Sample.openai
              Sample.one_chunk [lit "alpha?"; lit "beta?"])
    as (self' & answers & H1 & _ & _ & H4).
  - intros q. eexists. split; [reflexivity|]. split.
    + repeat constructor. vm_compute. discriminate.
    + apply Exists_cons_hd. vm_compute. reflexivity.
  - exists self', answers. split; [exact H1 | exact H4].
Defined.

(* ===================================================================== *)
(** * The history invariant on the sessions [RAGSystem.__init__] returns *)
(* ===================================================================== *)

Section ConstructedSessions.

Variable embed : str -> list float.
Variable normalize_L2 : list (list float) -> list (list float).
Variable index_search :
  FaissIndex -> list (list float) -> Z -> call (list (Z * float)).
Variable gemini : str -> Reply.
Variable openai : list Msg -> Reply.

Local Abbreviation retrieve := (search embed normalize_L2 index_search).
Local Abbreviation hits_of := (faiss_hits embed normalize_L2 index_search).
Local Abbreviation ask :=
  (answer_question embed normalize_L2 index_search gemini openai).
Local Abbreviation ask_each :=
  (ask_all embed normalize_L2 index_search gemini openai).
Local Abbreviation init := (RAGSystem_init embed normalize_L2).






End ConstructedSessions.



(* ===================================================================== *)
(** * Further properties: the chat loop and [main] *)
(* ===================================================================== *)

Section LoopFacts.

Variable embed : str -> list float.
Variable normalize_L2 : list (list float) -> list (list float).
Variable index_search :
  FaissIndex -> list (list float) -> Z -> call (list (Z * float)).
Variable gemini : str -> Reply.
Variable openai : list Msg -> Reply.

Local Abbreviation retrieve := (search embed normalize_L2 index_search).
Local Abbreviation ask :=
  (answer_question embed normalize_L2 index_search gemini openai).
Local Abbreviation turn :=
  (chat_turn embed normalize_L2 index_search gemini openai).
Local Abbreviation loop :=
  (chat_loop embed normalize_L2 index_search gemini openai).
Local Abbreviation run_main := (main embed normalize_L2).
Local Abbreviation init := (RAGSystem_init embed normalize_L2).

Lemma str_eqb_eq (a b : str) : str_eqb a b = true -> a = b.
Proof.
  revert b. induction a as [|x a IH]; intros [|y b] H; simpl in H;
    try discriminate; [reflexivity|].
  apply andb_prop in H as [Hx Hr]. apply N.eqb_eq in Hx.
  rewrite Hx, (IH b Hr). reflexivity.
Qed.

(** What one turn leaves of the session: everything but the history, and a
    history of whole exchanges stays one. *)
Lemma chat_turn_frame (self : RAGSystem) (inp : Input) :
  let self' := snd (fst (turn self inp)) in
  top_k self' = top_k self
  /\ pdf_processor self' = pdf_processor self
  /\ vector_store self' = vector_store self
  /\ llm self' = llm self
  /\ rag_chunks self' = rag_chunks self
  /\ ((exists ex, chat_history self = turns_of ex) ->
      exists ex', chat_history self' = turns_of ex').
Proof.
  unfold chat_turn. destruct inp as [raw| |];
    try (cbn [fst snd]; repeat split; intros H; exact H).
  destruct (negb (truthy (strip raw)));
    [cbn [fst snd]; repeat split; intros H; exact H|].
  destruct (lower_is (strip raw) "quit" || lower_is (strip raw) "exit"
            || lower_is (strip raw) "q");
    [cbn [fst snd]; repeat split; intros H; exact H|].
  destruct (lower_is (strip raw) "clear").
  { cbn [fst snd]. repeat split. intros _. exists []. reflexivity. }
  destruct (answer_question_cases embed normalize_L2 index_search gemini
              openai self (strip raw))
    as [(e & _ & ->) | [(_ & ->) | (results & _ & _ & ->)]];
    cbn [fst snd set_history top_k pdf_processor vector_store llm
         rag_chunks chat_history];
    repeat split; try (intros H; exact H).
  intros [ex Hex]. eexists (ex ++ [(strip raw, _)]).
  unfold turns_of in *. rewrite flat_map_app, Hex. simpl.
  reflexivity.
Qed.

(** X20. Whatever is typed, [chat_loop] leaves [top_k], the chunker
    settings, the vector store, the LLM mode and the chunk list of the
    session as they were, and a history made of whole exchanges (a user
    turn followed by an assistant turn, as at the start of a session)
    remains one: its length stays even. *)
Theorem chat_loop_frame (self : RAGSystem) (inputs : list Input) :
  let self' := snd (fst (loop self inputs)) in
  top_k self' = top_k self
  /\ pdf_processor self' = pdf_processor self
  /\ vector_store self' = vector_store self
  /\ llm self' = llm self
  /\ rag_chunks self' = rag_chunks self
  /\ ((exists ex, chat_history self = turns_of ex) ->
      exists ex', chat_history self' = turns_of ex'
                  /\ Nat.even (length (chat_history self')) = true).
Proof.
  assert (Heven : forall ex, Nat.even (length (turns_of ex)) = true).
  { induction ex as [|qa ex IH]; [reflexivity|]. simpl. exact IH. }
  revert self. induction inputs as [|inp rest IH]; intros self.
  - cbn [chat_loop fst snd]. repeat split.
    intros [ex Hex]. exists ex. split; [exact Hex|].
    rewrite Hex. apply Heven.
  - cbn [chat_loop].
    pose proof (chat_turn_frame self inp) as Ht. cbv zeta in Ht.
    destruct (turn self inp) as [[going s1] out]. cbn [fst snd] in Ht.
    destruct Ht as (H1 & H2 & H3 & H4 & H5 & H6).
    destruct going.
    + specialize (IH s1). cbv zeta in IH.
      destruct (loop s1 rest) as [[going' s2] out']. cbn [fst snd] in *.
      destruct IH as (I1 & I2 & I3 & I4 & I5 & I6).
      repeat split; try congruence.
      intros Hex. apply I6, H6, Hex.
    + cbn [fst snd]. repeat split; try assumption.
      intros Hex. destruct (H6 Hex) as [ex' Hex'].
      exists ex'. split; [exact Hex'|]. rewrite Hex'. apply Heven.
Qed.


(** X22. A line that, stripped and lower-cased, is [clear] empties the
    history and the loop goes on; a question that follows it and retrieves
    at least one result leaves a history of exactly two turns, the question
    and its answer, whatever the history was before. *)
Theorem chat_clear_then_question (self : RAGSystem) (line raw : str)
    (results : list (Chunk * float)) :
  lower_is (strip line) "clear" = true ->
  strip raw <> [] ->
  lower_is (strip raw) "quit" || lower_is (strip raw) "exit"
  || lower_is (strip raw) "q" || lower_is (strip raw) "clear" = false ->
  retrieve (vector_store self) (strip raw) (top_k self) = Ok results ->
  results <> [] ->
  exists answer self',
    loop self [Line line; Line raw] = (true, self', [Cleared; Answered answer])
    /\ chat_history self'
       = [mkMsg user (strip raw); mkMsg assistant answer]
    /\ vector_store self' = vector_store self.
Proof.
  intros Hc Hne Hcmd Hr Hres.
  apply orb_false_iff in Hcmd as [Hquit Hclear].
  cbn [chat_loop]. unfold chat_turn at 1.
  assert (Hline : map Re.lower_ascii (strip line) = lit "clear")
    by (apply str_eqb_eq; exact Hc).
  assert (Hl1 : negb (truthy (strip line)) = false).
  { destruct (strip line); [discriminate|reflexivity]. }
  assert (Hl2 : lower_is (strip line) "quit" || lower_is (strip line) "exit"
                || lower_is (strip line) "q" = false).
  { unfold lower_is. rewrite Hline. reflexivity. }
  rewrite Hl1, Hl2, Hc.
  unfold chat_turn.
  assert (Hq1 : negb (truthy (strip raw)) = false).
  { destruct (strip raw); [contradiction|reflexivity]. }
  rewrite Hq1, Hquit, Hclear.
  destruct (answer_question_cases embed normalize_L2 index_search gemini
              openai (clear self) (strip raw))
    as [(e & Hs & _) | [(Hs & _) | (results' & Hs & _ & ->)]];
    change (enhanced_query (clear self) (strip raw)) with (strip raw) in Hs;
    change (vector_store (clear self)) with (vector_store self) in Hs;
    change (top_k (clear self)) with (top_k self) in Hs;
    rewrite Hr in Hs; try discriminate.
  { injection Hs as ->. contradiction. }
  eexists _, _. split; [reflexivity|]. split; reflexivity.
Qed.


End LoopFacts.


(** A session with two turns of history: [ CLEAR ] and a question leave the
    two turns of the new exchange. *)
Lemma chat_clear_then_question_witness :
  exists answer self',
    chat_loop Sample.embed Sample.normalize_L2 Sample.index_search
              Sample.gemini Sample.openai
              (set_history Sample.one_chunk
                 [mkMsg user (lit "old?"); mkMsg assistant (lit "old.")])
              [Line (lit " CLEAR "); Line (lit "alpha? ")]
    = (true, self', [Cleared; Answered answer])
    /\ chat_history self'
       = [mkMsg user (strip (lit "alpha? ")); mkMsg assistant answer]
    /\ vector_store self'
       = vector_store
           (set_history Sample.one_chunk
              [mkMsg user (lit "old?"); mkMsg assistant (lit "old.")]).
Proof.
  exact (chat_clear_then_question Sample.embed Sample.normalize_L2
           Sample.index_search Sample.gemini Sample.openai
           (set_history Sample.one_chunk
              [mkMsg user (lit "old?"); mkMsg assistant (lit "old.")])
           (lit " CLEAR ") (lit "alpha? ")
           [(Sample.alpha, 0.9%float)]
           eq_refl ltac:(vm_compute; discriminate) eq_refl eq_refl
           ltac:(discriminate)).
Defined.
